(** * SonicHub backup website: the client-side search (website/search.js)

    A shallow embedding of the class [SonicHubSearch] and the properties of
    its keyword search: text normalization, whitespace tokenization,
    substring matching, the linear scan over the threads of the index,
    scoring, the stable sort by score, truncation, HTML rendering and
    escaping, the fetch-and-cache protocol of [loadIndex], the handlers of
    the page and the debounce of the input listener. *)

From Stdlib Require Import String Ascii.
From Stdlib Require Import ZArith List Bool Lia DecimalNat.
From Stdlib Require Import Sorting.Sorted Sorting.Permutation.
Import ListNotations.

Set Implicit Arguments.

(** ** JavaScript strings

    A JavaScript string is a sequence of UTF-16 code units.  The regular
    expressions of search.js carry no [u] flag, so they, like [includes],
    [trim], [split] and [substring], work code unit by code unit. *)

Definition codeUnit := Z.
Definition jsstring := list codeUnit.

(** An ASCII literal of the source as a sequence of code units. *)
Definition lit (s : string) : jsstring :=
  map (fun a => Z.of_N (N_of_ascii a)) (list_ascii_of_string s).

Definition inRange (lo hi c : Z) : bool := ((lo <=? c) && (c <=? hi))%Z.

Definition codeUnit_eqb (a b : codeUnit) : bool := (a =? b)%Z.

(** [\w] without the [u] and [i] flags: [A-Za-z0-9_]. *)
Definition isWordChar (c : codeUnit) : bool :=
  inRange 48 57 c || inRange 65 90 c || (c =? 95)%Z || inRange 97 122 c.

(** The range U+4E00..U+9FFF of the class: the CJK unified ideographs. *)
Definition isCJK (c : codeUnit) : bool := inRange 0x4e00 0x9fff c.

(** [\s], which is also the set that [trim] strips: ECMAScript WhiteSpace
    (TAB, VT, FF, ZWNBSP and the space separators) and LineTerminator
    (LF, CR, LS, PS). *)
Definition isWhiteSpace (c : codeUnit) : bool :=
  inRange 9 13 c || (c =? 32)%Z || (c =? 160)%Z || (c =? 0x1680)%Z
  || inRange 0x2000 0x200a c || (c =? 0x2028)%Z || (c =? 0x2029)%Z
  || (c =? 0x202f)%Z || (c =? 0x205f)%Z || (c =? 0x3000)%Z
  || (c =? 0xfeff)%Z.

Definition isUpperAscii (c : codeUnit) : bool := inRange 65 90 c.

(** The negated class of line 25 (not [\w], not U+4E00..U+9FFF, not [\s]):
    what [replace] deletes. *)
Definition isStripped (c : codeUnit) : bool :=
  negb (isWordChar c || isCJK c || isWhiteSpace c).

(** [s.replace(re, '')] for the global regular expression of line 25: every
    code unit the class matches is replaced by the empty string, the others
    are copied. *)
Fixpoint replaceStripped (s : jsstring) : jsstring :=
  match s with
  | [] => []
  | c :: rest =>
      if isStripped c then replaceStripped rest else c :: replaceStripped rest
  end.

(** [String.prototype.trim]. *)
Fixpoint trimStart (s : jsstring) : jsstring :=
  match s with
  | [] => []
  | c :: rest => if isWhiteSpace c then trimStart rest else s
  end.

Definition trimEnd (s : jsstring) : jsstring := rev (trimStart (rev s)).

Definition trim (s : jsstring) : jsstring := trimEnd (trimStart s).

(** [s.startsWith(k)] at position 0, the inner test of [includes]. *)
Fixpoint startsWith (s k : jsstring) {struct k} : bool :=
  match k, s with
  | [], _ => true
  | _ :: _, [] => false
  | a :: k', b :: s' => codeUnit_eqb a b && startsWith s' k'
  end.

(** [s.includes(k)]: [k] occurs at some position of [s]. *)
Fixpoint includes (s k : jsstring) : bool :=
  startsWith s k
  || match s with
     | [] => false
     | _ :: rest => includes rest k
     end.

(** [s.split(/\s+/)].  The splitter walks the string; at a white-space code
    unit the greedy match [\s+] swallows the whole run, the text collected
    since the previous separator is pushed, and collection restarts after
    the run; the text after the last separator is pushed at the end.
    [tok] is the text collected so far and [inRun] tells that the previous
    code unit belonged to a separator. *)
Fixpoint splitLoop (tok : jsstring) (inRun : bool) (s : jsstring)
  : list jsstring :=
  match s with
  | [] => [tok]
  | c :: rest =>
      if isWhiteSpace c
      then if inRun then splitLoop [] true rest
           else tok :: splitLoop [] true rest
      else splitLoop (tok ++ [c]) false rest
  end.

Definition splitWhitespace (s : jsstring) : list jsstring :=
  splitLoop [] false s.

(** [k => k.length > 0] *)
Definition nonEmpty (k : jsstring) : bool := (0 <? length k)%nat.

(** [s.substring(0, n)] for a non-negative integer [n]. *)
Definition substring0 (s : jsstring) (n : nat) : jsstring := firstn n s.

(** [a.slice(0, e)] for an integer [e]: a negative [e] counts from the end
    of the array, and the bound is clamped to the array. *)
Definition slice0 (A : Type) (a : list A) (e : Z) : list A :=
  let len := Z.of_nat (length a) in
  let final := if (e <? 0)%Z then Z.max (len + e) 0 else Z.min e len in
  firstn (Z.to_nat final) a.

(** The lower-casing of the ASCII letters.  [String.prototype.toLowerCase]
    agrees with it on every string of ASCII code units; it is the instance
    at which the development is evaluated on concrete inputs. *)
Definition toLowerCaseAscii (s : jsstring) : jsstring :=
  map (fun c => if isUpperAscii c then (c + 32)%Z else c) s.

(** ** The search index (search_index.json) *)

Record Post := {
  post_author : jsstring;
  post_date : jsstring;
  post_content : jsstring
}.

Record Thread := {
  thread_title : jsstring;
  thread_posts : list Post
}.

(** [index.threads] is a JSON object from file names to threads; it is kept
    as the list [Object.entries] enumerates, in that order.  [index.forums]
    is only counted for a log line and is left out. *)
Record Index := {
  threads : list (jsstring * Thread)
}.

(** ** Search results *)

(** An entry of [postMatches]: [{type: 'author', text}] or
    [{type: 'content', text}]. *)
Inductive PostMatch :=
| AuthorMatch (text : jsstring)
| ContentMatch (text : jsstring).

(** An entry of [matches]: [{type: 'title', text}] or
    [{type: 'post', postIndex, author, date, matches}]. *)
Inductive Match :=
| TitleMatch (text : jsstring)
| PostEntry (postIndex : nat) (author date : jsstring)
            (postMatches : list PostMatch).

(** [{type: 'thread', file, title, matches, score}] *)
Record Result := {
  result_file : jsstring;
  result_title : jsstring;
  result_matches : list Match;
  result_score : nat
}.

(** The [options] argument: a property that is absent (or [undefined])
    takes its default in the destructuring of lines 38-43. *)
Record Options := {
  searchAuthor : option bool;
  searchTitle : option bool;
  searchContent : option bool;
  maxResults : option Z
}.

Definition noOptions : Options :=
  {| searchAuthor := None; searchTitle := None;
     searchContent := None; maxResults := None |}.

Definition orDefault (A : Type) (d : A) (o : option A) : A :=
  match o with
  | Some v => v
  | None => d
  end.

(** ** The object and its index cache *)

(** The fields set by the constructor; [None] is [null]. *)
Record SonicHubSearch := {
  index : option Index;
  isLoading : bool
}.

Definition constructor : SonicHubSearch :=
  {| index := None; isLoading := false |}.

(** How the two awaits of [loadIndex] settle: [fetch] rejects, or
    [response.json()] rejects, or it resolves to the parsed document. *)
Inductive Settlement :=
| FetchRejected
| JsonRejected
| JsonParsed (doc : Index).

Definition isSome (A : Type) (o : option A) : bool :=
  match o with
  | Some _ => true
  | None => false
  end.

(** Lines 9-13: [loadIndex] up to its first await.  The flag tells whether
    the call went past the guard and issued the fetch ([true]) or returned
    at once ([false]). *)
Definition loadIndex_enter (this : SonicHubSearch) : SonicHubSearch * bool :=
  if isSome (index this) || isLoading this then (this, false)
  else ({| index := index this; isLoading := true |}, true).

(** Lines 14-19: [loadIndex] from the settlement of its awaits to its end.
    A rejection is caught and logged; [isLoading] is cleared either way. *)
Definition loadIndex_resume (s : Settlement) (this : SonicHubSearch)
  : SonicHubSearch :=
  let this :=
    match s with
    | JsonParsed doc => {| index := Some doc; isLoading := isLoading this |}
    | FetchRejected | JsonRejected => this
    end in
  {| index := index this; isLoading := false |}.

(** A call of [loadIndex] that runs from start to end with no other call in
    between; [net] is how its fetch would settle. *)
Definition loadIndex (net : Settlement) (this : SonicHubSearch)
  : SonicHubSearch :=
  let (this', fetching) := loadIndex_enter this in
  if fetching then loadIndex_resume net this' else this'.

(** Calls of [loadIndex] may overlap: a call suspended at its await lets
    other calls start.  The world keeps the object, the number of suspended
    calls, and two counters that only observe: the fetches issued and the
    calls that have run to their end. *)
Record World := {
  obj : SonicHubSearch;
  suspended : nat;
  fetches : nat;
  completed : nat
}.

Definition initialWorld : World :=
  {| obj := constructor; suspended := 0; fetches := 0; completed := 0 |}.

Inductive Event :=
| Call                       (* somebody calls [loadIndex()] *)
| Settle (s : Settlement).   (* the awaits of a suspended call settle *)

Definition exec (w : World) (e : Event) : option World :=
  match e with
  | Call =>
      let (this', fetching) := loadIndex_enter (obj w) in
      if fetching
      then Some {| obj := this'; suspended := S (suspended w);
                   fetches := S (fetches w); completed := completed w |}
      else Some {| obj := this'; suspended := suspended w;
                   fetches := fetches w; completed := S (completed w) |}
  | Settle s =>
      match suspended w with
      | O => None
      | S n =>
          Some {| obj := loadIndex_resume s (obj w); suspended := n;
                  fetches := fetches w; completed := S (completed w) |}
      end
  end.

Fixpoint run (w : World) (events : list Event) : option World :=
  match events with
  | [] => Some w
  | e :: rest =>
      match exec w e with
      | Some w' => run w' rest
      | None => None
      end
  end.

(** ** The methods of [SonicHubSearch] that work on text *)

Section Search.

(** [String.prototype.toLowerCase] belongs to the host, not to the
    repository: the methods are parameterised by it. *)
Variable toLowerCase : jsstring -> jsstring.

(** [normalizeText(text)]; [None] stands for [null] and [undefined],
    which are falsy like the empty string. *)
Definition normalizeText (text : option jsstring) : jsstring :=
  match text with
  | None => []
  | Some [] => []
  | Some s => trim (replaceStripped (toLowerCase s))
  end.

(** [searchInText(text, keywords)] *)
Definition searchInText (text : jsstring) (keywords : list jsstring) : bool :=
  let normalizedText := normalizeText (Some text) in
  existsb (fun keyword => includes normalizedText keyword) keywords.

(** Line 45: the keywords of a query. *)
Definition keywordsOf (query : jsstring) : list jsstring :=
  filter nonEmpty (splitWhitespace (normalizeText (Some query))).

(** Lines 62-72: the [postMatches] of one post. *)
Definition postMatchesOf (sAuthor sContent : bool) (keywords : list jsstring)
           (post : Post) : list PostMatch :=
  let postMatches := [] in
  let postMatches :=
    if sAuthor && searchInText (post_author post) keywords
    then postMatches ++ [AuthorMatch (post_author post)]
    else postMatches in
  let postMatches :=
    if sContent && searchInText (post_content post) keywords
    then postMatches ++
         [ContentMatch (substring0 (post_content post) 200 ++ lit "...")]
    else postMatches in
  postMatches.

(** Lines 60-83: the loop over [thread.posts], from index [i] on, pushing
    onto [matches]. *)
Fixpoint scanPosts (sAuthor sContent : bool) (keywords : list jsstring)
         (i : nat) (posts : list Post) (matches : list Match) : list Match :=
  match posts with
  | [] => matches
  | post :: rest =>
      let postMatches := postMatchesOf sAuthor sContent keywords post in
      let matches :=
        if (0 <? length postMatches)%nat
        then matches ++
             [PostEntry i (post_author post) (post_date post) postMatches]
        else matches in
      scanPosts sAuthor sContent keywords (S i) rest matches
  end.

(** Lines 52-83: the [matches] of one thread. *)
Definition threadMatches (sAuthor sTitle sContent : bool)
           (keywords : list jsstring) (thread : Thread) : list Match :=
  let matches := [] in
  let matches :=
    if sTitle && searchInText (thread_title thread) keywords
    then matches ++ [TitleMatch (thread_title thread)]
    else matches in
  scanPosts sAuthor sContent keywords 0 (thread_posts thread) matches.

(** Lines 51-94: the loop over [Object.entries(this.index.threads)],
    pushing onto [results]. *)
Fixpoint scanThreads (sAuthor sTitle sContent : bool)
         (keywords : list jsstring) (entries : list (jsstring * Thread))
         (results : list Result) : list Result :=
  match entries with
  | [] => results
  | (filename, thread) :: rest =>
      let matches := threadMatches sAuthor sTitle sContent keywords thread in
      let results :=
        if (0 <? length matches)%nat
        then results ++
             [{| result_file := filename;
                 result_title := thread_title thread;
                 result_matches := matches;
                 result_score := length matches |}]
        else results in
      scanThreads sAuthor sTitle sContent keywords rest results
  end.

(** Line 97: [results.sort((a, b) => b.score - a.score)].  The sort of
    ECMAScript is stable, and the comparator is a consistent order, which
    fixes the outcome: scores never increase, and results of equal score
    keep their order.  The insertion sort below computes it: [a] goes
    before the first result whose score is not larger. *)
Fixpoint insertByScore (a : Result) (sorted : list Result) : list Result :=
  match sorted with
  | [] => [a]
  | b :: rest =>
      if (result_score a <? result_score b)%nat
      then b :: insertByScore a rest
      else a :: b :: rest
  end.

Fixpoint sortByScore (results : list Result) : list Result :=
  match results with
  | [] => []
  | a :: rest => insertByScore a (sortByScore rest)
  end.

(** Lines 48-94: [results] as the scan leaves it, before the sort. *)
Definition scanResults (index : Index) (keywords : list jsstring)
           (options : Options) : list Result :=
  scanThreads (orDefault true (searchAuthor options))
              (orDefault true (searchTitle options))
              (orDefault true (searchContent options))
              keywords (threads index) [].

(** Lines 36-98: [search] from the point where [await this.loadIndex()]
    has returned, on the value [this.index] has at that point ([None] is
    [null]). *)
Definition searchLoaded (index : option Index) (query : jsstring)
           (options : Options) : list Result :=
  match index with
  | None => []
  | Some idx =>
      if negb (nonEmpty (trim query)) then []
      else
        let keywords := keywordsOf query in
        if (length keywords =? 0)%nat then []
        else
          let results := scanResults idx keywords options in
          slice0 (sortByScore results) (orDefault 50%Z (maxResults options))
  end.


(** Lines 36-97: the array [results] after the sort and before [slice]; it
    is empty on the paths that return early. *)
Definition rankedResults (index : option Index) (query : jsstring)
           (options : Options) : list Result :=
  match index with
  | None => []
  | Some idx =>
      if negb (nonEmpty (trim query)) then []
      else
        let keywords := keywordsOf query in
        if (length keywords =? 0)%nat then []
        else sortByScore (scanResults idx keywords options)
  end.

(** [search(query, options)] when no other call overlaps: its [loadIndex]
    runs to the end, settling as [net] if it fetches, and the rest of the
    body follows. *)
Definition search (net : Settlement) (this : SonicHubSearch)
           (query : jsstring) (options : Options)
  : SonicHubSearch * list Result :=
  let this := loadIndex net this in
  (this, searchLoaded (index this) query options).

End Search.

(** ** Rendering (formatSearchResults) *)

(** The double quote of the markup. *)
Definition dquote : jsstring := [34%Z].

(** A line break of a template literal followed by its indentation. *)
Definition newline (indent : nat) : jsstring := 10%Z :: repeat 32%Z indent.

(** [<div class="c">] *)
Definition divOpen (c : string) : jsstring :=
  lit "<div class=" ++ dquote ++ lit c ++ dquote ++ lit ">".

Definition divClose : jsstring := lit "</div>".

Fixpoint digitsOf (u : Decimal.uint) : jsstring :=
  match u with
  | Decimal.Nil => []
  | Decimal.D0 r => 48%Z :: digitsOf r
  | Decimal.D1 r => 49%Z :: digitsOf r
  | Decimal.D2 r => 50%Z :: digitsOf r
  | Decimal.D3 r => 51%Z :: digitsOf r
  | Decimal.D4 r => 52%Z :: digitsOf r
  | Decimal.D5 r => 53%Z :: digitsOf r
  | Decimal.D6 r => 54%Z :: digitsOf r
  | Decimal.D7 r => 55%Z :: digitsOf r
  | Decimal.D8 r => 56%Z :: digitsOf r
  | Decimal.D9 r => 57%Z :: digitsOf r
  end.

(** An array length inside a template literal: its decimal digits. *)
Definition decimal (n : nat) : jsstring := digitsOf (Nat.to_uint n).

(** [escapeHtml(text)]: the text is stored in a fresh [div] and read back
    through [innerHTML], which serializes a text node by escaping the
    ampersand, the no-break space and the two angle brackets. *)
Fixpoint escapeHtml (text : jsstring) : jsstring :=
  match text with
  | [] => []
  | c :: rest =>
      (if (c =? 38)%Z then lit "&amp;"
       else if (c =? 160)%Z then lit "&nbsp;"
       else if (c =? 60)%Z then lit "&lt;"
       else if (c =? 62)%Z then lit "&gt;"
       else [c]) ++ escapeHtml rest
  end.

(** Line 103. *)
Definition noResultsBlock : jsstring :=
  divOpen "search-no-results"
  ++ [25214; 19981; 21040; 31526; 21512; 30340; 25628; 23563; 32080; 26524;
      12290]%Z
  ++ divClose.

(** Line 106; [n] is [results.length]. *)
Definition resultsHeader (n : nat) : jsstring :=
  divOpen "search-results-header"
  ++ [25214; 21040; 32]%Z ++ decimal n
  ++ [32; 20491; 30456; 38364; 32080; 26524; 65306]%Z
  ++ divClose.

(** Line 112: the link to the thread, labelled with its escaped title; the
    file name goes into the attribute as it is. *)
Definition titleLink (result : Result) : jsstring :=
  lit "<a href=" ++ dquote ++ result_file result ++ dquote
  ++ lit " target=" ++ dquote ++ lit "_blank" ++ dquote ++ lit ">"
  ++ escapeHtml (result_title result) ++ lit "</a>".

(** Lines 109-114: the opening of a result item, with the title link. *)
Definition itemOpen (result : Result) : jsstring :=
  newline 16 ++ divOpen "search-result-item"
  ++ newline 20 ++ divOpen "search-result-title"
  ++ newline 24 ++ titleLink result
  ++ newline 20 ++ divClose
  ++ newline 20 ++ divOpen "search-result-matches".

(** Lines 134-135. *)
Definition itemClose : jsstring := divClose ++ newline 16 ++ divClose.

(** Lines 124-128: one entry of [match.matches]. *)
Definition renderPostMatch (postMatch : PostMatch) : jsstring :=
  match postMatch with
  | AuthorMatch text =>
      divOpen "search-post-match"
      ++ [55357; 56420; 32; 20316; 32773; 31526; 21512; 58; 32]%Z
      ++ escapeHtml text ++ divClose
  | ContentMatch text =>
      divOpen "search-post-match"
      ++ [55357; 56541; 32; 20839; 23481; 31526; 21512; 58; 32]%Z
      ++ escapeHtml text ++ divClose
  end.

(** Lines 117-131: one entry of [result.matches], appended to [html]. *)
Definition appendMatch (html : jsstring) (m : Match) : jsstring :=
  match m with
  | TitleMatch text =>
      html ++ (divOpen "search-match search-match-title"
               ++ [55357; 56523; 32; 27161; 38988; 31526; 21512; 58; 32]%Z
               ++ escapeHtml text ++ divClose)
  | PostEntry _ author date postMatches =>
      let html :=
        html ++ (divOpen "search-match search-match-post"
                 ++ newline 24 ++ divOpen "search-post-info"
                 ++ [55357; 56420; 32]%Z ++ escapeHtml author
                 ++ [32; 124; 32; 55357; 56656; 32]%Z ++ date ++ divClose) in
      let html :=
        fold_left (fun html postMatch => html ++ renderPostMatch postMatch)
                  postMatches html in
      html ++ divClose
  end.

(** Lines 108-136: one iteration of the loop over [results]. *)
Definition appendResult (html : jsstring) (result : Result) : jsstring :=
  let html := html ++ itemOpen result in
  let html := fold_left appendMatch (result_matches result) html in
  html ++ itemClose.

(** [formatSearchResults(results)] *)
Definition formatSearchResults (results : list Result) : jsstring :=
  if (length results =? 0)%nat then noResultsBlock
  else fold_left appendResult results (resultsHeader (length results)).

(** What one entry of [result.matches] contributes to the markup. *)
Definition renderMatch (m : Match) : jsstring := appendMatch [] m.

(** What one result contributes to the markup: the opening with the title
    link, one rendered entry per match, and the closing. *)
Definition renderItem (result : Result) : jsstring :=
  itemOpen result ++ concat (map renderMatch (result_matches result))
  ++ itemClose.

(** The worlds that [loadIndex] keeps to: a load is in flight exactly when
    [isLoading] is set, which happens only while the index is [null]. *)
Definition consistent (w : World) : Prop :=
  (isLoading (obj w) = true -> index (obj w) = None)
  /\ suspended w = (if isLoading (obj w) then 1 else 0)%nat.

(** ** Vocabulary of the properties *)

(** [k] occurs verbatim in [s]: the code units of [k], contiguous and in
    order. *)
Definition occursIn (k s : jsstring) : Prop :=
  exists before after, s = before ++ k ++ after.

Definition isBlank (s : jsstring) : Prop :=
  Forall (fun c => isWhiteSpace c = true) s.

Definition noBlank (s : jsstring) : Prop :=
  Forall (fun c => isWhiteSpace c = false) s.

(** The code units that normalization keeps: ASCII word characters, CJK
    ideographs of U+4E00..U+9FFF and white space. *)
Definition isKept (c : codeUnit) : bool :=
  isWordChar c || isCJK c || isWhiteSpace c.

(** [t] is [s] without its leading and trailing white space. *)
Definition Trimmed (s t : jsstring) : Prop :=
  (exists l r, s = l ++ t ++ r /\ isBlank l /\ isBlank r)
  /\ (forall c rest, t = c :: rest -> isWhiteSpace c = false)
  /\ (forall c front, t = front ++ [c] -> isWhiteSpace c = false).

(** [toks] are the maximal runs of [s] between runs of white space, in
    order: [s] is blank and has no run, or it is some white space, a
    non-empty run free of white space that ends at the end of [s] or at a
    white-space code unit, and the rest splits into the remaining runs. *)
Inductive SplitsInto : jsstring -> list jsstring -> Prop :=
| SplitsInto_blank s :
    isBlank s -> SplitsInto s []
| SplitsInto_token ws tok rest toks :
    isBlank ws -> tok <> [] -> noBlank tok ->
    (rest = [] \/ exists c rest', rest = c :: rest' /\ isWhiteSpace c = true) ->
    SplitsInto rest toks ->
    SplitsInto (ws ++ tok ++ rest) (tok :: toks).

(** The code units a normalized text is made of: kept by the class and not
    an upper-case ASCII letter. *)
Definition isNormalUnit (c : codeUnit) : bool :=
  isKept c && negb (isUpperAscii c).

Section Selection.

Variable toLowerCase : jsstring -> jsstring.

(** A field matches when some keyword occurs in its normalized text. *)
Definition fieldMatches (keywords : list jsstring) (text : jsstring) : Prop :=
  exists k, In k keywords
            /\ occursIn k (normalizeText toLowerCase (Some text)).

(** Some enabled field of the thread matches. *)
Definition threadSelected (sAuthor sTitle sContent : bool)
           (keywords : list jsstring) (thread : Thread) : Prop :=
  (sTitle = true /\ fieldMatches keywords (thread_title thread))
  \/ (sAuthor = true
      /\ exists post, In post (thread_posts thread)
                      /\ fieldMatches keywords (post_author post))
  \/ (sContent = true
      /\ exists post, In post (thread_posts thread)
                      /\ fieldMatches keywords (post_content post)).

(** The keyword occurs in some normalized field of the thread. *)
Definition occursInThread (k : jsstring) (thread : Thread) : Prop :=
  occursIn k (normalizeText toLowerCase (Some (thread_title thread)))
  \/ exists post, In post (thread_posts thread)
       /\ (occursIn k (normalizeText toLowerCase (Some (post_author post)))
           \/ occursIn k (normalizeText toLowerCase (Some (post_content post)))).

(** The decision the scan takes on the title of a thread and on a post. *)
Definition titleHit (sTitle : bool) (keywords : list jsstring)
           (thread : Thread) : bool :=
  sTitle && searchInText toLowerCase (thread_title thread) keywords.

Definition postHit (sAuthor sContent : bool) (keywords : list jsstring)
           (post : Post) : bool :=
  (sAuthor && searchInText toLowerCase (post_author post) keywords)
  || (sContent && searchInText toLowerCase (post_content post) keywords).

Definition threadHit (sAuthor sTitle sContent : bool)
           (keywords : list jsstring) (thread : Thread) : bool :=
  titleHit sTitle keywords thread
  || existsb (postHit sAuthor sContent keywords) (thread_posts thread).

(** The result pushed for an entry of [index.threads] that is hit. *)
Definition resultOf (sAuthor sTitle sContent : bool)
           (keywords : list jsstring) (entry : jsstring * Thread) : Result :=
  {| result_file := fst entry;
     result_title := thread_title (snd entry);
     result_matches :=
       threadMatches toLowerCase sAuthor sTitle sContent keywords (snd entry);
     result_score :=
       length (threadMatches toLowerCase sAuthor sTitle sContent keywords
                             (snd entry)) |}.

End Selection.

(** Descending order of score. *)
Definition scoreGe (a b : Result) : Prop :=
  (result_score b <= result_score a)%nat.

Definition hasScore (n : nat) (r : Result) : bool :=
  (result_score r =? n)%nat.

(** [l] is an initial segment of [l']. *)
Definition isPrefix (A : Type) (l l' : list A) : Prop :=
  exists rest, l' = l ++ rest.

(** ** A small index

    Two threads; the query [sonic] hits the second one twice (title and
    post) and the first one once (post). *)

Definition sampleIndex : Index :=
  {| threads :=
       [ (lit "thread-2.html",
          {| thread_title := lit "Chao Garden";
             thread_posts :=
               [ {| post_author := lit "Amy";
                    post_date := lit "2010-05-02";
                    post_content := lit "Sonic is fast." |} ] |});
         (lit "thread-7.html",
          {| thread_title := lit "Sonic Adventure";
             thread_posts :=
               [ {| post_author := lit "Tails";
                    post_date := lit "2011-01-30";
                    post_content := lit "I love SONIC!" |};
                 {| post_author := lit "Knuckles";
                    post_date := lit "2011-02-01";
                    post_content := lit "Meh." |} ] |}) ] |}.

Definition withMaxResults (m : Z) : Options :=
  {| searchAuthor := None; searchTitle := None;
     searchContent := None; maxResults := Some m |}.

(** ** The page (lines 151-200)

    The elements the handlers touch: the value of [#search-input], the
    markup and the inline [display] of [#search-results], and the inline
    [display] of [#search-loading].  The handlers are attached only when
    the form, the input and the results element exist (line 159); the
    loading element is not part of that test and may be missing. *)

Inductive Display :=
| display_unset
| display_none
| display_block.

Record Page := {
  searchInput_value : jsstring;
  searchResults_innerHTML : jsstring;
  searchResults_display : Display;
  searchLoading_display : option Display   (* [None]: no such element *)
}.

(** The global [sonicHubSearch] together with the page. *)
Record App := {
  sonicHubSearch : SonicHubSearch;
  page : Page
}.

(** How the promise of an async handler settles. *)
Inductive Completion :=
| Fulfilled
| RejectedTypeError.

(** Lines 169-170 and 178-179: empty the results and hide them. *)
Definition hideResults (p : Page) : Page :=
  {| searchInput_value := searchInput_value p;
     searchResults_innerHTML := [];
     searchResults_display := display_none;
     searchLoading_display := searchLoading_display p |}.

(** Line 195. *)
Definition errorBlock : jsstring :=
  divOpen "search-error"
  ++ [25628; 23563; 26178; 30332; 29983; 37679; 35492; 65292; 35531; 31245;
      24460; 20877; 35430; 12290]%Z
  ++ divClose.

(** Lines 187-197: what the [try] statement leaves on the page; [attempt]
    is the markup when the block ran to its end and [None] when it threw
    and the handler took over. *)
Definition showAttempt (attempt : option jsstring) (p : Page) : Page :=
  {| searchInput_value := searchInput_value p;
     searchResults_innerHTML :=
       match attempt with
       | Some resultsHtml => resultsHtml
       | None => errorBlock
       end;
     searchResults_display := display_block;
     searchLoading_display := searchLoading_display p |}.

(** Lines 184-185. *)
Definition showLoading (p : Page) : Page :=
  {| searchInput_value := searchInput_value p;
     searchResults_innerHTML := searchResults_innerHTML p;
     searchResults_display := display_none;
     searchLoading_display := Some display_block |}.

(** Line 199. *)
Definition hideLoading (p : Page) : Page :=
  {| searchInput_value := searchInput_value p;
     searchResults_innerHTML := searchResults_innerHTML p;
     searchResults_display := searchResults_display p;
     searchLoading_display := Some display_none |}.

(** [performSearch()], lines 175-200, when no other handler overlaps; [net]
    is how the fetch of [loadIndex] would settle.  Writing to the style of a
    missing loading element throws a TypeError outside the [try].  Inside
    the [try], [search] first awaits [loadIndex], which catches what its
    awaits throw, and then runs lines 36-98 on [this.index];
    [searchBody] is that run: [Some] of the list it returns, or [None] when
    it throws, as it does at line 51 on a parsed document that has no
    [threads].  A throw sends the handler to the [catch] of lines 193-197,
    which shows the error block. *)
Definition performSearchVia
           (searchBody : option Index -> jsstring -> Options
                         -> option (list Result))
           (net : Settlement) (app : App) : App * Completion :=
  let query := trim (searchInput_value (page app)) in
  if negb (nonEmpty query)
  then ({| sonicHubSearch := sonicHubSearch app;
           page := hideResults (page app) |}, Fulfilled)
  else
    match searchLoading_display (page app) with
    | None => (app, RejectedTypeError)
    | Some _ =>
        let p := showLoading (page app) in
        let this := loadIndex net (sonicHubSearch app) in
        let attempt :=
          match searchBody (index this) query noOptions with
          | Some results => Some (formatSearchResults results)
          | None => None
          end in
        let p := showAttempt attempt p in
        ({| sonicHubSearch := this; page := hideLoading p |}, Fulfilled)
    end.

Section PageHandlers.

Variable toLowerCase : jsstring -> jsstring.

(** [performSearch()] on an object whose index, when loaded, has the shape
    [Index]: lines 36-98 are [searchLoaded], which returns. *)
Definition performSearch (net : Settlement) (app : App) : App * Completion :=
  performSearchVia
    (fun index query options =>
       Some (searchLoaded toLowerCase index query options))
    net app.

(** The listener of the [input] event, lines 165-172, as the debounce calls
    it. *)
Definition onInput (net : Settlement) (app : App) : App * Completion :=
  if (2 <=? length (trim (searchInput_value (page app))))%nat
  then performSearch net app
  else ({| sonicHubSearch := sonicHubSearch app;
           page := hideResults (page app) |}, Fulfilled).

End PageHandlers.

(** ** Debounce (lines 203-213)

    [debounce(func, wait)] keeps one closure variable, [timeout].  The
    timers belong to the host: a pending timer is its id and the arguments
    its [later] closure captured.  Ids are fresh; their numbering is the
    model's.  [calls] records the calls of [func], oldest first. *)

Section Debounce.

Variable A : Type.

Record Debounced := {
  timeout : option nat;
  timers : list (nat * A);
  nextTimer : nat;
  calls : list A
}.

Definition debounce : Debounced :=
  {| timeout := None; timers := []; nextTimer := 0; calls := [] |}.

(** [clearTimeout(id)]: cancels the timer if it is pending, and does nothing
    for [undefined] or an id that is not pending. *)
Definition clearTimeout (id : option nat) (pending : list (nat * A))
  : list (nat * A) :=
  match id with
  | None => pending
  | Some i => filter (fun t => negb (fst t =? i)%nat) pending
  end.

Inductive DebounceEvent :=
| Invoke (args : A)    (* [executedFunction(...args)] is called *)
| Expire (id : nat).   (* the pending timer [id] fires *)

Definition debounceStep (d : Debounced) (e : DebounceEvent)
  : option Debounced :=
  match e with
  | Invoke args =>
      let pending := clearTimeout (timeout d) (timers d) in
      let id := nextTimer d in
      Some {| timeout := Some id;
              timers := pending ++ [(id, args)];
              nextTimer := S id;
              calls := calls d |}
  | Expire id =>
      match find (fun t => (fst t =? id)%nat) (timers d) with
      | None => None
      | Some (_, args) =>
          let pending := filter (fun t => negb (fst t =? id)%nat) (timers d) in
          (* [later]: *)
          let pending := clearTimeout (timeout d) pending in
          Some {| timeout := timeout d;
                  timers := pending;
                  nextTimer := nextTimer d;
                  calls := calls d ++ [args] |}
      end
  end.

Fixpoint debounceRun (d : Debounced) (events : list DebounceEvent)
  : option Debounced :=
  match events with
  | [] => Some d
  | e :: rest =>
      match debounceStep d e with
      | Some d' => debounceRun d' rest
      | None => None
      end
  end.

(** What debouncing means: each expiry passes on the arguments of the latest
    invocation since the previous expiry, if there is one. *)
Fixpoint latestArgs (latest : option A) (events : list DebounceEvent)
  : list A :=
  match events with
  | [] => []
  | Invoke args :: rest => latestArgs (Some args) rest
  | Expire _ :: rest =>
      match latest with
      | Some args => args :: latestArgs None rest
      | None => latestArgs None rest
      end
  end.

(** The only timer that can be pending is the one [timeout] names. *)
Definition onePending (d : Debounced) : Prop :=
  timers d = []
  \/ exists id args, timers d = [(id, args)] /\ timeout d = Some id.

Definition pendingArgs (d : Debounced) : option A :=
  match timers d with
  | (_, args) :: _ => Some args
  | [] => None
  end.

End Debounce.

(** ** Vocabulary of the further properties *)

(** The first document that a settlement of the trace delivers. *)
Fixpoint firstParsed (events : list Event) : option Index :=
  match events with
  | [] => None
  | Settle (JsonParsed doc) :: _ => Some doc
  | _ :: rest => firstParsed rest
  end.

(** The number of settlements of the trace that are rejections. *)
Fixpoint rejections (events : list Event) : nat :=
  match events with
  | [] => 0
  | Settle FetchRejected :: rest => S (rejections rest)
  | Settle JsonRejected :: rest => S (rejections rest)
  | _ :: rest => rejections rest
  end.

(** An idle object without index: its next [loadIndex] fetches. *)
Definition wouldFetch (this : SonicHubSearch) : nat :=
  if isSome (index this) || isLoading this then 0 else 1.

(** The code units that [escapeHtml] rewrites. *)
Definition isHtmlSpecial (c : codeUnit) : bool :=
  (c =? 38)%Z || (c =? 160)%Z || (c =? 60)%Z || (c =? 62)%Z.

(** The number of less-than signs of a string. *)
Definition countLt (s : jsstring) : nat := count_occ Z.eq_dec s 60%Z.

Definition allOff : Options :=
  {| searchAuthor := Some false; searchTitle := Some false;
     searchContent := Some false; maxResults := None |}.

Section Layout.

Variable toLowerCase : jsstring -> jsstring.

(** The entry pushed for the post at a position of [thread.posts]. *)
Definition postEntryOf (sAuthor sContent : bool) (keywords : list jsstring)
           (ip : nat * Post) : Match :=
  PostEntry (fst ip) (post_author (snd ip)) (post_date (snd ip))
            (postMatchesOf toLowerCase sAuthor sContent keywords (snd ip)).

(** The posts of a thread with their positions. *)
Definition indexedFrom (i : nat) (posts : list Post) : list (nat * Post) :=
  combine (seq i (length posts)) posts.

End Layout.

(** ** Strings *)

Lemma startsWith_spec (k s : jsstring) :
  startsWith s k = true <-> exists after, s = k ++ after.
Proof.
  revert s; induction k as [|a k IH]; intros s; simpl.
  - split; [intros _; now exists s | reflexivity].
  - destruct s as [|b s].
    + split; [discriminate | intros [after H]; discriminate].
    + unfold codeUnit_eqb. rewrite andb_true_iff, Z.eqb_eq, IH. split.
      * intros [-> [after ->]]. now exists after.
      * intros [after H]. injection H as -> ->. split; [reflexivity|now exists after].
Qed.

Lemma includes_spec (s k : jsstring) :
  includes s k = true <-> occursIn k s.
Proof.
  unfold occursIn. induction s as [|c s IH]; simpl.
  - rewrite orb_false_r, startsWith_spec. split.
    + intros [after H]. exists [], after. exact H.
    + intros [before [after H]]. destruct before; [now exists after|discriminate].
  - rewrite orb_true_iff, startsWith_spec, IH. split.
    + intros [[after H] | [before [after H]]].
      * exists [], after. exact H.
      * exists (c :: before), after. simpl. now rewrite H.
    + intros [[|b before] [after H]].
      * left. now exists after.
      * right. injection H as _ H. now exists before, after.
Qed.

Lemma replaceStripped_filter (s : jsstring) :
  replaceStripped s = filter isKept s.
Proof.
  induction s as [|c s IH]; simpl; [reflexivity|].
  unfold isStripped, isKept in *. rewrite IH.
  now destruct (isWordChar c || isCJK c || isWhiteSpace c).
Qed.

Lemma trimStart_split (s : jsstring) :
  exists l, s = l ++ trimStart s /\ isBlank l.
Proof.
  induction s as [|c s [l [E B]]]; simpl.
  - exists []. split; [reflexivity|constructor].
  - destruct (isWhiteSpace c) eqn:W.
    + exists (c :: l). split; [simpl; now rewrite <- E|now constructor].
    + exists []. split; [reflexivity|constructor].
Qed.

Lemma trimStart_head (s : jsstring) c rest :
  trimStart s = c :: rest -> isWhiteSpace c = false.
Proof.
  induction s as [|d s IH]; simpl; [discriminate|].
  destruct (isWhiteSpace d) eqn:W; [exact IH|].
  intros H. injection H as -> _. exact W.
Qed.

Lemma trimStart_fixed (s : jsstring) :
  (forall c rest, s = c :: rest -> isWhiteSpace c = false) -> trimStart s = s.
Proof.
  destruct s as [|c s]; simpl; [reflexivity|].
  intros H. now rewrite (H c s eq_refl).
Qed.

Lemma trimStart_last (s front : jsstring) c :
  trimStart s = front ++ [c] -> exists front', s = front' ++ [c].
Proof.
  intros H. destruct (trimStart_split s) as [l [E _]].
  exists (l ++ front). now rewrite <- app_assoc, <- H.
Qed.

Lemma isBlank_rev (s : jsstring) : isBlank s -> isBlank (rev s).
Proof. unfold isBlank. apply Forall_rev. Qed.

Lemma trim_Trimmed (s : jsstring) : Trimmed s (trim s).
Proof.
  unfold trim, trimEnd.
  destruct (trimStart_split s) as [l [El Bl]].
  destruct (trimStart_split (rev (trimStart s))) as [r [Er Br]].
  assert (E : trimStart s = rev (trimStart (rev (trimStart s))) ++ rev r).
  { rewrite <- rev_app_distr, <- Er. now rewrite rev_involutive. }
  split; [|split].
  - exists l, (rev r). split; [|split; [exact Bl|now apply isBlank_rev]].
    now rewrite <- E.
  - intros c rest H.
    destruct (trimStart (rev (trimStart s))) as [|d t] eqn:T.
    + discriminate.
    + apply (trimStart_head s (c := c) (rest := rest ++ rev r)).
      rewrite E, H. reflexivity.
  - intros c front H.
    apply (trimStart_head (rev (trimStart s)) (c := c) (rest := rev front)).
    rewrite <- (rev_involutive (trimStart (rev (trimStart s)))), H.
    now rewrite rev_app_distr.
Qed.

Lemma trim_fixed (s : jsstring) :
  (forall c rest, s = c :: rest -> isWhiteSpace c = false) ->
  (forall c front, s = front ++ [c] -> isWhiteSpace c = false) ->
  trim s = s.
Proof.
  intros Hh Hl. unfold trim, trimEnd. rewrite (trimStart_fixed Hh).
  rewrite trimStart_fixed; [apply rev_involutive|].
  intros c rest H. apply (Hl c (rev rest)).
  now rewrite <- (rev_involutive s), H.
Qed.

Lemma trimStart_blank_app (l x : jsstring) :
  isBlank l -> trimStart (l ++ x) = trimStart x.
Proof.
  induction 1 as [|c l W _ IH]; simpl; [reflexivity|].
  now rewrite W.
Qed.

Lemma trimStart_blank (l : jsstring) : isBlank l -> trimStart l = [].
Proof.
  intros B. rewrite <- (app_nil_r l). now rewrite trimStart_blank_app.
Qed.

Lemma Trimmed_trim (s t : jsstring) : Trimmed s t -> trim s = t.
Proof.
  intros [[l [r [E [Bl Br]]]] [Hh Hl]]. subst s.
  unfold trim, trimEnd. rewrite trimStart_blank_app by exact Bl.
  destruct t as [|c rest].
  - simpl. rewrite (trimStart_blank Br). reflexivity.
  - simpl app at 1. simpl trimStart. rewrite (Hh c rest eq_refl).
    change (c :: rest ++ r) with ((c :: rest) ++ r).
    rewrite rev_app_distr, trimStart_blank_app by now apply isBlank_rev.
    rewrite trimStart_fixed; [apply rev_involutive|].
    intros d tl H. apply (Hl d (rev tl)).
    now rewrite <- (rev_involutive (c :: rest)), H.
Qed.

(** A few evaluations of the string functions. *)

Example normalizeText_example :
  normalizeText toLowerCaseAscii (Some (lit "  He llo, W*orld!  "))
  = lit "he llo world".
Proof. reflexivity. Qed.

Example splitWhitespace_example :
  splitWhitespace (lit " a  b ") = [[]; lit "a"; lit "b"; []].
Proof. reflexivity. Qed.

Example keywordsOf_example :
  keywordsOf toLowerCaseAscii (lit "  Sonic!!  the-Hedgehog ")
  = [lit "sonic"; lit "thehedgehog"].
Proof. reflexivity. Qed.

Example slice0_negative_example :
  slice0 [1; 2; 3]%nat (-1) = [1; 2]%nat.
Proof. reflexivity. Qed.

Example searchLoaded_example :
  map (fun r => (result_file r, result_score r))
      (searchLoaded toLowerCaseAscii (Some sampleIndex) (lit "sonic")
                    noOptions)
  = [(lit "thread-7.html", 2%nat); (lit "thread-2.html", 1%nat)].
Proof. reflexivity. Qed.

(** ** Tokenization *)

Lemma splitLoop_run_flag (s : jsstring) :
  filter nonEmpty (splitLoop [] true s) = filter nonEmpty (splitLoop [] false s).
Proof.
  destruct s as [|c s]; simpl; [reflexivity|].
  now destruct (isWhiteSpace c).
Qed.

Lemma splitLoop_blank (ws s : jsstring) (b : bool) :
  isBlank ws ->
  filter nonEmpty (splitLoop [] b (ws ++ s))
  = filter nonEmpty (splitLoop [] b s).
Proof.
  intros B. revert b. induction B as [|c ws W _ IH]; intros b; simpl.
  - reflexivity.
  - rewrite W. destruct b; simpl; rewrite IH;
      [reflexivity | apply splitLoop_run_flag].
Qed.

Lemma splitLoop_token (tok rest acc : jsstring) (b : bool) :
  noBlank tok -> tok <> [] ->
  splitLoop acc b (tok ++ rest) = splitLoop (acc ++ tok) false rest.
Proof.
  intros N. revert acc b. induction N as [|c tok W N IH]; intros acc b Hne.
  - now contradiction Hne.
  - simpl. rewrite W. destruct tok as [|d tok].
    + reflexivity.
    + rewrite IH by discriminate. now rewrite <- app_assoc.
Qed.

Lemma nonEmpty_true (tok : jsstring) : tok <> [] -> nonEmpty tok = true.
Proof. destruct tok; [now intros H; contradiction H | reflexivity]. Qed.

Lemma SplitsInto_split (s : jsstring) (toks : list jsstring) :
  SplitsInto s toks -> toks = filter nonEmpty (splitWhitespace s).
Proof.
  unfold splitWhitespace.
  induction 1 as [s B | ws tok rest toks B Hne N Hrest _ IH].
  - rewrite <- (app_nil_r s), splitLoop_blank by exact B. reflexivity.
  - rewrite splitLoop_blank by exact B.
    rewrite splitLoop_token by assumption. simpl app.
    destruct Hrest as [-> | [c [rest' [-> W]]]].
    + simpl. rewrite (nonEmpty_true Hne).
      f_equal. exact IH.
    + simpl. rewrite W. simpl. rewrite (nonEmpty_true Hne). f_equal.
      rewrite IH. simpl. rewrite W. simpl. reflexivity.
Qed.

Lemma SplitsInto_lead (c : codeUnit) (s : jsstring) (toks : list jsstring) :
  isWhiteSpace c = true -> SplitsInto s toks -> SplitsInto (c :: s) toks.
Proof.
  intros W H. destruct H as [s B | ws tok rest toks B Hne N Hrest H].
  - apply SplitsInto_blank. now constructor.
  - change (c :: ws ++ tok ++ rest) with ((c :: ws) ++ tok ++ rest).
    apply SplitsInto_token; try assumption. now constructor.
Qed.

Lemma splitLoop_SplitsInto (s tok : jsstring) (b : bool) :
  noBlank tok -> (b = true -> tok = []) ->
  SplitsInto (tok ++ s) (filter nonEmpty (splitLoop tok b s)).
Proof.
  revert tok b. induction s as [|c s IH]; intros tok b N Hb.
  - destruct tok as [|d tok].
    + simpl. apply SplitsInto_blank. constructor.
    + change (filter nonEmpty (splitLoop (d :: tok) b [])) with [d :: tok].
      apply (SplitsInto_token (ws := []) (tok := d :: tok) (rest := [])
                              (toks := []));
        try assumption; [constructor | discriminate | now left |].
      apply SplitsInto_blank. constructor.
  - simpl splitLoop. destruct (isWhiteSpace c) eqn:W.
    + assert (T : SplitsInto (c :: s) (filter nonEmpty (splitLoop [] true s))).
      { apply SplitsInto_lead; [exact W|].
        apply (IH [] true); [constructor | reflexivity]. }
      destruct b.
      * rewrite (Hb eq_refl). exact T.
      * destruct tok as [|d tok]; [exact T|].
        change (filter nonEmpty ((d :: tok) :: splitLoop [] true s))
          with ((d :: tok) :: filter nonEmpty (splitLoop [] true s)).
        apply (SplitsInto_token (ws := []) (tok := d :: tok)
                                (rest := c :: s));
          try assumption;
          [constructor | discriminate | right; now exists c, s].
    + replace (tok ++ c :: s) with ((tok ++ [c]) ++ s)
        by now rewrite <- app_assoc.
      apply IH; [|discriminate].
      apply Forall_app. split; [exact N | now constructor].
Qed.

(** ** The scan *)

Section ScanFacts.

Variable toLowerCase : jsstring -> jsstring.
Variables sAuthor sTitle sContent : bool.
Variable keywords : list jsstring.

Lemma searchInText_fieldMatches (text : jsstring) :
  searchInText toLowerCase text keywords = true
  <-> fieldMatches toLowerCase keywords text.
Proof.
  unfold searchInText, fieldMatches. rewrite existsb_exists.
  split; intros [k [I H]]; exists k; (split; [exact I|]);
    now apply includes_spec.
Qed.

Lemma postMatchesOf_hit (post : Post) :
  (0 <? length (postMatchesOf toLowerCase sAuthor sContent keywords post))%nat
  = postHit toLowerCase sAuthor sContent keywords post.
Proof.
  unfold postMatchesOf, postHit.
  destruct (sAuthor && searchInText toLowerCase (post_author post) keywords);
    destruct (sContent && searchInText toLowerCase (post_content post) keywords);
    reflexivity.
Qed.

Lemma scanPosts_length (posts : list Post) (i : nat) (matches : list Match) :
  length (scanPosts toLowerCase sAuthor sContent keywords i posts matches)
  = (length matches
     + length (filter (postHit toLowerCase sAuthor sContent keywords) posts))%nat.
Proof.
  revert i matches. induction posts as [|post posts IH]; intros i matches.
  - simpl. lia.
  - simpl. rewrite IH, postMatchesOf_hit.
    destruct (postHit toLowerCase sAuthor sContent keywords post); simpl.
    + rewrite length_app. simpl. lia.
    + reflexivity.
Qed.

Lemma threadMatches_length (thread : Thread) :
  length (threadMatches toLowerCase sAuthor sTitle sContent keywords thread)
  = ((if titleHit toLowerCase sTitle keywords thread then 1 else 0)
     + length (filter (postHit toLowerCase sAuthor sContent keywords)
                      (thread_posts thread)))%nat.
Proof.
  unfold threadMatches, titleHit. rewrite scanPosts_length.
  now destruct (sTitle && searchInText toLowerCase (thread_title thread) keywords).
Qed.

Lemma filter_nonempty_existsb (A : Type) (f : A -> bool) (l : list A) :
  (0 <? length (filter f l))%nat = existsb f l.
Proof.
  induction l as [|a l IH]; simpl; [reflexivity|].
  destruct (f a); simpl; [reflexivity | exact IH].
Qed.

Lemma threadMatches_hit (thread : Thread) :
  (0 <? length (threadMatches toLowerCase sAuthor sTitle sContent keywords thread))%nat
  = threadHit toLowerCase sAuthor sTitle sContent keywords thread.
Proof.
  rewrite threadMatches_length. unfold threadHit.
  destruct (titleHit toLowerCase sTitle keywords thread); simpl.
  - reflexivity.
  - apply filter_nonempty_existsb.
Qed.

Lemma scanThreads_filter (entries : list (jsstring * Thread))
      (results : list Result) :
  scanThreads toLowerCase sAuthor sTitle sContent keywords entries results
  = results
    ++ map (resultOf toLowerCase sAuthor sTitle sContent keywords)
         (filter (fun e => threadHit toLowerCase sAuthor sTitle sContent
                                     keywords (snd e)) entries).
Proof.
  revert results. induction entries as [|[filename thread] entries IH];
    intros results; simpl.
  - now rewrite app_nil_r.
  - rewrite IH, threadMatches_hit.
    destruct (threadHit toLowerCase sAuthor sTitle sContent keywords thread).
    + simpl. now rewrite <- app_assoc.
    + reflexivity.
Qed.

Lemma threadHit_selected (thread : Thread) :
  threadHit toLowerCase sAuthor sTitle sContent keywords thread = true
  <-> threadSelected toLowerCase sAuthor sTitle sContent keywords thread.
Proof.
  unfold threadHit, threadSelected, titleHit.
  rewrite orb_true_iff, andb_true_iff, existsb_exists, searchInText_fieldMatches.
  split.
  - intros [H | [post [I H]]]; [now left|].
    unfold postHit in H. apply orb_true_iff in H.
    destruct H as [H | H]; apply andb_true_iff in H; destruct H as [E H];
      apply searchInText_fieldMatches in H; [right; left | right; right];
      (split; [exact E | now exists post]).
  - intros [H | [[E [post [I H]]] | [E [post [I H]]]]]; [now left | |];
      right; exists post; (split; [exact I|]); unfold postHit;
      apply searchInText_fieldMatches in H; rewrite E, H; simpl;
      [reflexivity | apply orb_true_r].
Qed.

Lemma threadSelected_occurs (thread : Thread) :
  threadSelected toLowerCase sAuthor sTitle sContent keywords thread ->
  exists k, In k keywords /\ occursInThread toLowerCase k thread.
Proof.
  unfold threadSelected, occursInThread, fieldMatches.
  intros [[_ [k [I H]]] | [[_ [post [P [k [I H]]]]] | [_ [post [P [k [I H]]]]]]];
    exists k; (split; [exact I|]).
  - now left.
  - right. exists post. split; [exact P | now left].
  - right. exists post. split; [exact P | now right].
Qed.

End ScanFacts.

(** ** The sort and the truncation *)

Lemma insertByScore_perm (a : Result) (l : list Result) :
  Permutation (insertByScore a l) (a :: l).
Proof.
  induction l as [|b l IH]; simpl; [reflexivity|].
  destruct (result_score a <? result_score b)%nat; [|reflexivity].
  rewrite IH. apply perm_swap.
Qed.

Lemma sortByScore_perm (l : list Result) : Permutation (sortByScore l) l.
Proof.
  induction l as [|a l IH]; simpl; [reflexivity|].
  rewrite insertByScore_perm. now constructor.
Qed.

Lemma insertByScore_sorted (a : Result) (l : list Result) :
  StronglySorted scoreGe l -> StronglySorted scoreGe (insertByScore a l).
Proof.
  induction 1 as [|b l S IH F]; simpl.
  - constructor; constructor.
  - destruct (result_score a <? result_score b)%nat eqn:C.
    + apply Nat.ltb_lt in C. constructor; [exact IH|].
      apply (Permutation_Forall (Permutation_sym (insertByScore_perm a l))).
      constructor; [unfold scoreGe; lia | exact F].
    + apply Nat.ltb_ge in C. constructor; [now constructor|].
      constructor; [exact C|].
      revert F. apply Forall_impl. unfold scoreGe. intros; lia.
Qed.

Lemma sortByScore_sorted (l : list Result) :
  StronglySorted scoreGe (sortByScore l).
Proof.
  induction l as [|a l IH]; simpl; [constructor|].
  now apply insertByScore_sorted.
Qed.

Lemma insertByScore_stable (n : nat) (a : Result) (l : list Result) :
  filter (hasScore n) (insertByScore a l) = filter (hasScore n) (a :: l).
Proof.
  induction l as [|b l IH]; simpl; [reflexivity|].
  destruct (result_score a <? result_score b)%nat eqn:C; [|reflexivity].
  apply Nat.ltb_lt in C. simpl. rewrite IH. simpl. unfold hasScore.
  destruct (result_score a =? n)%nat eqn:A;
    destruct (result_score b =? n)%nat eqn:B; try reflexivity.
  apply Nat.eqb_eq in A, B. lia.
Qed.

Lemma sortByScore_stable (n : nat) (l : list Result) :
  filter (hasScore n) (sortByScore l) = filter (hasScore n) l.
Proof.
  induction l as [|a l IH]; simpl; [reflexivity|].
  rewrite insertByScore_stable. simpl. now rewrite IH.
Qed.

Lemma slice0_firstn (A : Type) (a : list A) (e : Z) :
  exists k, slice0 a e = firstn k a
            /\ ((0 <= e)%Z -> (Z.of_nat k <= e)%Z).
Proof.
  unfold slice0. eexists. split; [reflexivity|].
  intros H. destruct (e <? 0)%Z eqn:C; lia.
Qed.

Lemma firstn_prefix (A : Type) (k : nat) (l : list A) : isPrefix (firstn k l) l.
Proof. exists (skipn k l). symmetry. apply firstn_skipn. Qed.

Lemma StronglySorted_app_l (A : Type) (R : A -> A -> Prop) (l r : list A) :
  StronglySorted R (l ++ r) -> StronglySorted R l.
Proof.
  induction l as [|a l IH]; simpl; intros H; [constructor|].
  inversion H as [|? ? S F]; subst. constructor; [now apply IH|].
  apply Forall_app in F. tauto.
Qed.

Lemma StronglySorted_app_cross (A : Type) (R : A -> A -> Prop) (l r : list A) :
  StronglySorted R (l ++ r) -> forall a b, In a l -> In b r -> R a b.
Proof.
  induction l as [|c l IH]; simpl; intros H a b Ia Ib; [contradiction|].
  inversion H as [|? ? S F]; subst. destruct Ia as [-> | Ia].
  - rewrite Forall_forall in F. apply F. apply in_or_app. now right.
  - now apply IH.
Qed.

Lemma filter_prefix (A : Type) (f : A -> bool) (l l' : list A) :
  isPrefix l l' -> isPrefix (filter f l) (filter f l').
Proof.
  intros [rest ->]. exists (filter f rest). apply filter_app.
Qed.

Section SearchFacts.

Variable toLowerCase : jsstring -> jsstring.

Lemma searchLoaded_slice (index : option Index) (query : jsstring)
      (options : Options) :
  searchLoaded toLowerCase index query options
  = slice0 (rankedResults toLowerCase index query options)
           (orDefault 50%Z (maxResults options)).
Proof.
  unfold searchLoaded, rankedResults, slice0.
  destruct index as [idx|]; [|now rewrite firstn_nil].
  destruct (negb (nonEmpty (trim query))); [now rewrite firstn_nil|].
  destruct (length (keywordsOf toLowerCase query) =? 0)%nat;
    [now rewrite firstn_nil | reflexivity].
Qed.

Lemma rankedResults_cases (index : option Index) (query : jsstring)
      (options : Options) :
  rankedResults toLowerCase index query options = []
  \/ exists idx,
       index = Some idx /\ trim query <> []
       /\ keywordsOf toLowerCase query <> []
       /\ rankedResults toLowerCase index query options
          = sortByScore (scanResults toLowerCase idx
                                     (keywordsOf toLowerCase query) options).
Proof.
  unfold rankedResults. destruct index as [idx|]; [|now left].
  destruct (trim query) as [|c t] eqn:T; [now left|].
  destruct (keywordsOf toLowerCase query) as [|k ks] eqn:K; [now left|].
  right. exists idx. simpl. repeat split; discriminate || reflexivity.
Qed.

Lemma searchLoaded_prefix (index : option Index) (query : jsstring)
      (options : Options) :
  isPrefix (searchLoaded toLowerCase index query options)
           (rankedResults toLowerCase index query options).
Proof.
  rewrite searchLoaded_slice.
  destruct (slice0_firstn (rankedResults toLowerCase index query options)
                          (orDefault 50%Z (maxResults options)))
    as [k [-> _]].
  apply firstn_prefix.
Qed.

Lemma rankedResults_sorted (index : option Index) (query : jsstring)
      (options : Options) :
  StronglySorted scoreGe (rankedResults toLowerCase index query options).
Proof.
  destruct (rankedResults_cases index query options)
    as [-> | [idx [_ [_ [_ ->]]]]]; [constructor | apply sortByScore_sorted].
Qed.

Lemma scanResults_filter (idx : Index) (keywords : list jsstring)
      (options : Options) :
  scanResults toLowerCase idx keywords options
  = map (resultOf toLowerCase (orDefault true (searchAuthor options))
                  (orDefault true (searchTitle options))
                  (orDefault true (searchContent options)) keywords)
        (filter (fun e => threadHit toLowerCase
                            (orDefault true (searchAuthor options))
                            (orDefault true (searchTitle options))
                            (orDefault true (searchContent options))
                            keywords (snd e))
                (threads idx)).
Proof. unfold scanResults. now rewrite scanThreads_filter. Qed.

Lemma scanResults_In (idx : Index) (keywords : list jsstring)
      (options : Options) (r : Result) :
  In r (scanResults toLowerCase idx keywords options) ->
  exists thread,
    In (result_file r, thread) (threads idx)
    /\ threadHit toLowerCase (orDefault true (searchAuthor options))
                 (orDefault true (searchTitle options))
                 (orDefault true (searchContent options)) keywords thread
       = true
    /\ r = resultOf toLowerCase (orDefault true (searchAuthor options))
                    (orDefault true (searchTitle options))
                    (orDefault true (searchContent options)) keywords
                    (result_file r, thread).
Proof.
  rewrite scanResults_filter, in_map_iff.
  intros [[filename thread] [E I]]. apply filter_In in I. destruct I as [I H].
  exists thread. subst r. simpl in *. auto.
Qed.

Lemma searchLoaded_In (index : option Index) (query : jsstring)
      (options : Options) (r : Result) :
  In r (searchLoaded toLowerCase index query options) ->
  exists idx,
    index = Some idx
    /\ In r (scanResults toLowerCase idx (keywordsOf toLowerCase query) options).
Proof.
  intros I. destruct (searchLoaded_prefix index query options) as [rest E].
  assert (I' : In r (rankedResults toLowerCase index query options)).
  { rewrite E. apply in_or_app. now left. }
  destruct (rankedResults_cases index query options)
    as [N | [idx [-> [_ [_ R]]]]].
  - rewrite N in I'. contradiction.
  - exists idx. split; [reflexivity|]. rewrite R in I'.
    now apply (Permutation_in _ (sortByScore_perm _)).
Qed.

End SearchFacts.

(** ** The search *)

Section SearchTheorems.

Variable toLowerCase : jsstring -> jsstring.

(** C1.  For every loaded index and every keyword list (non-empty ones in
    particular), the scan visits every entry of [index.threads] in order and
    pushes one result, carrying the file name and title, for exactly those
    threads that the scan hits; a thread is hit if and only if some enabled
    field matches: its title when [searchTitle] holds, or the author of some
    post when [searchAuthor] holds, or the content of some post when
    [searchContent] holds, a field matching when some keyword occurs in its
    normalized text.  The sort that precedes the truncation only permutes
    these results, and the sorted list is what [search] holds before it
    truncates, whenever the keywords are those of its query. *)
Theorem scan_selects_matching_threads
        (idx : Index) (keywords : list jsstring) (options : Options) :
  let sA := orDefault true (searchAuthor options) in
  let sT := orDefault true (searchTitle options) in
  let sC := orDefault true (searchContent options) in
  let results := scanResults toLowerCase idx keywords options in
  results
  = map (resultOf toLowerCase sA sT sC keywords)
        (filter (fun e => threadHit toLowerCase sA sT sC keywords (snd e))
                (threads idx))
  /\ (forall thread,
         threadHit toLowerCase sA sT sC keywords thread = true
         <-> threadSelected toLowerCase sA sT sC keywords thread)
  /\ Permutation (sortByScore results) results
  /\ (forall query,
         trim query <> [] -> keywordsOf toLowerCase query = keywords ->
         keywords <> [] ->
         rankedResults toLowerCase (Some idx) query options
         = sortByScore results).
Proof.
  intros sA sT sC results. split; [|split; [|split]].
  - apply scanResults_filter.
  - intros thread. apply threadHit_selected.
  - apply sortByScore_perm.
  - intros query T K N. unfold rankedResults. rewrite K.
    destruct (trim query); [now contradiction T|].
    destruct keywords; [now contradiction N | reflexivity].
Qed.

(** C2.  Every result that [search] returns belongs to an entry of the
    index, and its score is the number of its match entries: one for a
    matching title plus one per post with a matching field.  The returned
    list is in non-increasing order of score, and results of equal score
    stand in the order of the scan, so the score alone ranks them. *)
Theorem search_scores_and_order
        (index : option Index) (query : jsstring) (options : Options) :
  let sA := orDefault true (searchAuthor options) in
  let sT := orDefault true (searchTitle options) in
  let sC := orDefault true (searchContent options) in
  let keywords := keywordsOf toLowerCase query in
  let out := searchLoaded toLowerCase index query options in
  (forall r, In r out ->
     result_score r = length (result_matches r)
     /\ exists idx thread,
          index = Some idx
          /\ In (result_file r, thread) (threads idx)
          /\ result_score r
             = ((if titleHit toLowerCase sT keywords thread then 1 else 0)
                + length (filter (postHit toLowerCase sA sC keywords)
                                 (thread_posts thread)))%nat)
  /\ StronglySorted scoreGe out
  /\ (forall idx n,
         index = Some idx ->
         isPrefix (filter (hasScore n) out)
                  (filter (hasScore n)
                          (scanResults toLowerCase idx keywords options))).
Proof.
  intros sA sT sC keywords out. split; [|split].
  - intros r I. apply searchLoaded_In in I. destruct I as [idx [E I]].
    apply scanResults_In in I. destruct I as [thread [I [_ R]]].
    split; [rewrite R; reflexivity|].
    exists idx, thread. repeat split; try assumption.
    rewrite R. simpl. apply threadMatches_length.
  - destruct (searchLoaded_prefix toLowerCase index query options)
      as [rest E].
    apply StronglySorted_app_l with (r := rest). fold out in E. rewrite <- E.
    apply rankedResults_sorted.
  - intros idx n E.
    pose proof (filter_prefix (hasScore n)
                  (searchLoaded_prefix toLowerCase index query options)) as P.
    fold out in P.
    destruct (rankedResults_cases toLowerCase index query options)
      as [N | [idx' [E' [_ [_ R]]]]].
    + rewrite N in P. destruct P as [rest P].
      destruct (filter (hasScore n) out); [|discriminate].
      eexists. reflexivity.
    + rewrite R, sortByScore_stable in P.
      assert (idx' = idx) by congruence. subst idx'. exact P.
Qed.

(** C3.  For every query, the keywords are exactly the runs that splitting
    the normalized query on runs of white space leaves, empty tokens
    removed: a list is that splitting if and only if it is the keyword list
    of line 45. *)
Theorem keywords_split_on_whitespace (query : jsstring)
        (toks : list jsstring) :
  SplitsInto (normalizeText toLowerCase (Some query)) toks
  <-> toks = keywordsOf toLowerCase query.
Proof.
  unfold keywordsOf. split.
  - apply SplitsInto_split.
  - intros ->. unfold splitWhitespace.
    apply (splitLoop_SplitsInto (normalizeText toLowerCase (Some query))
                                (tok := []) (b := false));
      [constructor | discriminate].
Qed.

(** C4.  [searchInText] reports a match if and only if some keyword occurs
    verbatim, as a contiguous run of code units, in the normalized text; and
    every thread that [search] returns has a field whose normalized text
    contains one of the keywords of the query verbatim. *)
Theorem searchInText_exact_substring :
  (forall text keywords,
      searchInText toLowerCase text keywords = true
      <-> exists k, In k keywords
                    /\ occursIn k (normalizeText toLowerCase (Some text)))
  /\ (forall index query options r,
         In r (searchLoaded toLowerCase index query options) ->
         exists idx thread k,
           index = Some idx
           /\ In (result_file r, thread) (threads idx)
           /\ In k (keywordsOf toLowerCase query)
           /\ occursInThread toLowerCase k thread).
Proof.
  split.
  - intros text keywords. apply searchInText_fieldMatches.
  - intros index query options r I.
    apply searchLoaded_In in I. destruct I as [idx [E I]].
    apply scanResults_In in I. destruct I as [thread [I [H _]]].
    apply threadHit_selected, threadSelected_occurs in H.
    destruct H as [k [K O]]. now exists idx, thread, k.
Qed.

(** C6.  [normalizeText] returns the empty string for [null], [undefined]
    and the empty string; for every other string it lower-cases it, keeps
    only the code units that are ASCII word characters, CJK ideographs of
    U+4E00..U+9FFF or white space, and strips the white space at both ends:
    the result is the one string that is the kept text trimmed. *)
Theorem normalizeText_spec :
  normalizeText toLowerCase None = []
  /\ normalizeText toLowerCase (Some []) = []
  /\ forall c s t,
       Trimmed (filter isKept (toLowerCase (c :: s))) t
       <-> t = normalizeText toLowerCase (Some (c :: s)).
Proof.
  split; [reflexivity|]. split; [reflexivity|].
  intros c s t. simpl. rewrite replaceStripped_filter. split.
  - intros H. symmetry. now apply Trimmed_trim.
  - intros ->. apply trim_Trimmed.
Qed.

End SearchTheorems.

(** ** Early returns and truncation *)

Lemma trim_blank (s : jsstring) : isBlank s -> trim s = [].
Proof.
  intros B. unfold trim, trimEnd. now rewrite (trimStart_blank B).
Qed.

Lemma filter_kept_blank (s : jsstring) :
  Forall (fun c => isKept c = false \/ isWhiteSpace c = true) s ->
  isBlank (filter isKept s).
Proof.
  induction 1 as [|c s H _ IH]; simpl; [constructor|].
  destruct (isKept c) eqn:K; [|exact IH].
  constructor; [|exact IH]. destruct H as [H | H]; [discriminate | exact H].
Qed.

Lemma loadIndex_failed (net : Settlement) (this : SonicHubSearch) :
  index this = None ->
  net = FetchRejected \/ net = JsonRejected \/ isLoading this = true ->
  index (loadIndex net this) = None.
Proof.
  intros E H. unfold loadIndex, loadIndex_enter. rewrite E. simpl.
  destruct (isLoading this) eqn:L; [exact E|].
  destruct H as [-> | [-> | H]]; [reflexivity | reflexivity | discriminate].
Qed.

Section EarlyReturns.

Variable toLowerCase : jsstring -> jsstring.

Lemma searchLoaded_blank (index : option Index) (query : jsstring)
      (options : Options) :
  isBlank query -> searchLoaded toLowerCase index query options = [].
Proof.
  intros B. unfold searchLoaded. rewrite (trim_blank B).
  now destruct index.
Qed.

Lemma searchLoaded_no_keywords (index : option Index) (query : jsstring)
      (options : Options) :
  keywordsOf toLowerCase query = [] ->
  searchLoaded toLowerCase index query options = [].
Proof.
  intros K. unfold searchLoaded. rewrite K. destruct index; [|reflexivity].
  now destruct (negb (nonEmpty (trim query))).
Qed.

Lemma keywordsOf_nothing_kept (query : jsstring) :
  Forall (fun c => isKept c = false \/ isWhiteSpace c = true)
         (toLowerCase query) ->
  keywordsOf toLowerCase query = [].
Proof.
  intros H. unfold keywordsOf, normalizeText.
  destruct query as [|c s]; [reflexivity|].
  rewrite replaceStripped_filter, (trim_blank (filter_kept_blank H)).
  reflexivity.
Qed.

(** C8.  [search] is a total function and degrades to the empty list: when
    the query is empty or white space only, when the normalization of the
    query leaves no keyword (a query whose lower-cased code units are all
    deleted by the class or white space, punctuation for instance), and
    when the index is still [null] after [loadIndex], whose fetch or JSON
    parse was rejected (or which returned at once because a load was in
    flight), the result is the empty list. *)
Theorem search_degrades_to_empty
        (net : Settlement) (this : SonicHubSearch) (query : jsstring)
        (options : Options) :
  isBlank query
  \/ Forall (fun c => isKept c = false \/ isWhiteSpace c = true)
            (toLowerCase query)
  \/ keywordsOf toLowerCase query = []
  \/ (index this = None
      /\ (net = FetchRejected \/ net = JsonRejected \/ isLoading this = true)) ->
  search toLowerCase net this query options = (loadIndex net this, []).
Proof.
  intros H. unfold search. f_equal.
  destruct H as [H | [H | [H | [E H]]]].
  - now apply searchLoaded_blank.
  - now apply searchLoaded_no_keywords, keywordsOf_nothing_kept.
  - now apply searchLoaded_no_keywords.
  - now rewrite (@loadIndex_failed net this E H).
Qed.

(** C9, amended.  When [maxResults] is not negative (50 when the option is
    not supplied), the list that [search] returns has at most [maxResults]
    elements; it is a leading segment of the sorted list, so every result
    that truncation drops scores no more than every result it keeps. *)
Theorem search_truncates_to_maxResults
        (index : option Index) (query : jsstring) (options : Options) :
  (0 <= orDefault 50 (maxResults options))%Z ->
  let out := searchLoaded toLowerCase index query options in
  let ranked := rankedResults toLowerCase index query options in
  (Z.of_nat (length out) <= orDefault 50 (maxResults options))%Z
  /\ (exists dropped,
         ranked = out ++ dropped
         /\ forall a b, In a out -> In b dropped ->
                        (result_score b <= result_score a)%nat)
  /\ (maxResults options = None -> (length out <= 50)%nat).
Proof.
  intros M out ranked.
  assert (L : (Z.of_nat (length out) <= orDefault 50 (maxResults options))%Z).
  { unfold out. rewrite searchLoaded_slice.
    destruct (slice0_firstn (rankedResults toLowerCase index query options)
                            (orDefault 50%Z (maxResults options)))
      as [k [-> B]].
    specialize (B M). rewrite length_firstn. lia. }
  split; [exact L|]. split.
  - destruct (searchLoaded_prefix toLowerCase index query options)
      as [dropped E].
    exists dropped. split; [exact E|].
    intros a b Ia Ib.
    apply (StronglySorted_app_cross (R := scoreGe) out dropped);
      try assumption.
    fold out in E. rewrite <- E. apply rankedResults_sorted.
  - intros N. rewrite N in L. simpl in L. lia.
Qed.

End EarlyReturns.

(** C8 at a query that would match, on an object whose fetch is rejected. *)
Lemma search_degrades_to_empty_witness :
  search toLowerCaseAscii FetchRejected constructor (lit "sonic") noOptions
  = (loadIndex FetchRejected constructor, []).
Proof.
  apply (@search_degrades_to_empty toLowerCaseAscii FetchRejected constructor
                                   (lit "sonic") noOptions).
  right. right. right. split; [reflexivity | left; reflexivity].
Defined.

(** C9, amended, at the sample index with [maxResults] 1: one result, the
    one of score 2. *)
Lemma search_truncates_to_maxResults_witness :
  let out := searchLoaded toLowerCaseAscii (Some sampleIndex) (lit "sonic")
                          (withMaxResults 1) in
  let ranked := rankedResults toLowerCaseAscii (Some sampleIndex)
                              (lit "sonic") (withMaxResults 1) in
  (Z.of_nat (length out) <= 1)%Z
  /\ (exists dropped,
         ranked = out ++ dropped
         /\ forall a b, In a out -> In b dropped ->
                        (result_score b <= result_score a)%nat)
  /\ (maxResults (withMaxResults 1) = None -> (length out <= 50)%nat).
Proof.
  apply (@search_truncates_to_maxResults toLowerCaseAscii (Some sampleIndex)
                                         (lit "sonic") (withMaxResults 1)).
  simpl. lia.
Defined.

(** C9 as stated fails: with [maxResults] -1, [slice] counts from the end
    of the array and drops the last of the two results; one result is
    returned, which is more than -1. *)
Lemma search_negative_maxResults :
  let out := searchLoaded toLowerCaseAscii (Some sampleIndex) (lit "sonic")
                          (withMaxResults (-1)) in
  length out = 1%nat
  /\ orDefault 50%Z (maxResults (withMaxResults (-1))) = (-1)%Z
  /\ ~ (Z.of_nat (length out)
        <= orDefault 50 (maxResults (withMaxResults (-1))))%Z.
Proof.
  split; [reflexivity|]. split; [reflexivity|].
  vm_compute. intros H. now apply H.
Qed.

(** ** Normal forms *)

Lemma filter_all (A : Type) (f : A -> bool) (l : list A) :
  Forall (fun a => f a = true) l -> filter f l = l.
Proof.
  induction 1 as [|a l H _ IH]; simpl; [reflexivity|].
  now rewrite H, IH.
Qed.

Lemma Trimmed_In (s t : jsstring) (c : codeUnit) :
  Trimmed s t -> In c t -> In c s.
Proof.
  intros [[l [r [-> _]]] _] I.
  apply in_or_app. right. apply in_or_app. now left.
Qed.

Lemma SplitsInto_tokens (s : jsstring) (toks : list jsstring) :
  SplitsInto s toks ->
  forall k, In k toks -> k <> [] /\ noBlank k /\ forall c, In c k -> In c s.
Proof.
  induction 1 as [s B | ws tok rest toks B Hne N Hrest _ IH]; intros k I.
  - contradiction.
  - destruct I as [<- | I].
    + repeat split; try assumption.
      intros c Ic. apply in_or_app. right. apply in_or_app. now left.
    + destruct (IH k I) as [H1 [H2 H3]]. repeat split; try assumption.
      intros c Ic. apply in_or_app. right. apply in_or_app. right. auto.
Qed.

Lemma noBlank_ends (k : jsstring) :
  noBlank k ->
  (forall c rest, k = c :: rest -> isWhiteSpace c = false)
  /\ (forall c front, k = front ++ [c] -> isWhiteSpace c = false).
Proof.
  unfold noBlank. rewrite Forall_forall. intros N. split.
  - intros c rest ->. apply N. now left.
  - intros c front ->. apply N. apply in_or_app. right. now left.
Qed.

Lemma existsb_agree (A : Type) (f g : A -> bool) (l : list A) :
  (forall a, In a l -> f a = g a) -> existsb f l = existsb g l.
Proof.
  induction l as [|a l IH]; simpl; intros H; [reflexivity|].
  rewrite (H a) by now left. rewrite IH; [reflexivity|].
  intros b I. apply H. now right.
Qed.

Section NormalForms.

Variable toLowerCase : jsstring -> jsstring.

(** Two facts about [String.prototype.toLowerCase]: it leaves alone a string
    made of kept code units none of which is an upper-case ASCII letter
    (lower-case letters, digits, the underscore, the ideographs and white
    space have no lower-case mapping), and its result holds no upper-case
    ASCII letter. *)
Hypothesis lower_fixes_normal :
  forall s, Forall (fun c => isNormalUnit c = true) s -> toLowerCase s = s.
Hypothesis lower_no_upper :
  forall s, Forall (fun c => isUpperAscii c = false) (toLowerCase s).

Lemma normalizeText_units (text : option jsstring) :
  Forall (fun c => isNormalUnit c = true) (normalizeText toLowerCase text).
Proof.
  destruct text as [[|d s]|]; simpl; try constructor.
  apply Forall_forall. intros c I.
  apply (@Trimmed_In _ _ c (trim_Trimmed _)) in I.
  rewrite replaceStripped_filter in I. apply filter_In in I.
  destruct I as [I K]. unfold isNormalUnit. rewrite K. simpl.
  pose proof (lower_no_upper (d :: s)) as U. rewrite Forall_forall in U.
  now rewrite (U c I).
Qed.

Lemma normalizeText_ends (text : option jsstring) :
  (forall c rest, normalizeText toLowerCase text = c :: rest ->
                  isWhiteSpace c = false)
  /\ (forall c front, normalizeText toLowerCase text = front ++ [c] ->
                      isWhiteSpace c = false).
Proof.
  destruct text as [[|d s]|]; simpl.
  - split; [discriminate | intros c [|? ?]; discriminate].
  - destruct (trim_Trimmed (replaceStripped (toLowerCase (d :: s))))
      as [_ H]. exact H.
  - split; [discriminate | intros c [|? ?]; discriminate].
Qed.

Lemma normalizeText_fixed (s : jsstring) :
  Forall (fun c => isNormalUnit c = true) s ->
  (forall c rest, s = c :: rest -> isWhiteSpace c = false) ->
  (forall c front, s = front ++ [c] -> isWhiteSpace c = false) ->
  normalizeText toLowerCase (Some s) = s.
Proof.
  intros U Hh Hl. destruct s as [|d s]; [reflexivity|].
  unfold normalizeText. rewrite (lower_fixes_normal U).
  rewrite replaceStripped_filter, filter_all.
  - now apply trim_fixed.
  - revert U. apply Forall_impl. intros c H.
    unfold isNormalUnit in H. now apply andb_true_iff in H.
Qed.

Lemma keyword_normal (query k : jsstring) :
  In k (keywordsOf toLowerCase query) ->
  normalizeText toLowerCase (Some k) = k.
Proof.
  intros I.
  assert (S : SplitsInto (normalizeText toLowerCase (Some query))
                         (keywordsOf toLowerCase query)).
  { unfold keywordsOf, splitWhitespace.
    apply (splitLoop_SplitsInto (normalizeText toLowerCase (Some query))
                                (tok := []) (b := false));
      [constructor | discriminate]. }
  destruct (SplitsInto_tokens S k I) as [_ [N C]].
  destruct (noBlank_ends N) as [Hh Hl].
  apply normalizeText_fixed; try assumption.
  apply Forall_forall. intros c Ic.
  pose proof (normalizeText_units (Some query)) as U.
  rewrite Forall_forall in U. auto.
Qed.

(** C10.  [normalizeText] is idempotent; every keyword of a query is in
    normal form; and normalizing the keywords once more before the
    substring test leaves the outcome of [searchInText] unchanged. *)
Theorem normalizeText_idempotent :
  (forall text,
      normalizeText toLowerCase (Some (normalizeText toLowerCase text))
      = normalizeText toLowerCase text)
  /\ (forall query k,
         In k (keywordsOf toLowerCase query) ->
         normalizeText toLowerCase (Some k) = k)
  /\ (forall query text,
         existsb (fun keyword =>
                    includes (normalizeText toLowerCase (Some text))
                             (normalizeText toLowerCase (Some keyword)))
                 (keywordsOf toLowerCase query)
         = searchInText toLowerCase text (keywordsOf toLowerCase query)).
Proof.
  split; [|split].
  - intros text. destruct (normalizeText_ends text) as [Hh Hl].
    apply normalizeText_fixed; try assumption. apply normalizeText_units.
  - apply keyword_normal.
  - intros query text. unfold searchInText. apply existsb_agree.
    intros k I. now rewrite (keyword_normal query k I).
Qed.

End NormalForms.

Lemma toLowerCaseAscii_fixes_normal (s : jsstring) :
  Forall (fun c => isNormalUnit c = true) s -> toLowerCaseAscii s = s.
Proof.
  induction 1 as [|c s H _ IH]; simpl; [reflexivity|].
  fold (toLowerCaseAscii s). rewrite IH.
  unfold isNormalUnit in H. apply andb_true_iff in H. destruct H as [_ H].
  apply negb_true_iff in H. now rewrite H.
Qed.

Lemma toLowerCaseAscii_no_upper (s : jsstring) :
  Forall (fun c => isUpperAscii c = false) (toLowerCaseAscii s).
Proof.
  induction s as [|c s IH]; simpl; constructor; [|exact IH].
  destruct (isUpperAscii c) eqn:U; [|exact U].
  unfold isUpperAscii, inRange in *.
  apply andb_true_iff in U. destruct U as [L H].
  apply Z.leb_le in L, H. apply andb_false_iff. right.
  apply Z.leb_gt. lia.
Qed.

(** C10 at the ASCII lower-casing. *)
Lemma normalizeText_idempotent_witness :
  normalizeText toLowerCaseAscii
    (Some (normalizeText toLowerCaseAscii (Some (lit "  Sonic & Tails!  "))))
  = normalizeText toLowerCaseAscii (Some (lit "  Sonic & Tails!  ")).
Proof.
  apply (@normalizeText_idempotent toLowerCaseAscii
           toLowerCaseAscii_fixes_normal toLowerCaseAscii_no_upper).
Defined.

(** ** Rendering *)

Lemma fold_left_append (A : Type) (f : A -> jsstring) (l : list A)
      (html : jsstring) :
  fold_left (fun html a => html ++ f a) l html = html ++ concat (map f l).
Proof.
  revert html. induction l as [|a l IH]; intros html; simpl.
  - now rewrite app_nil_r.
  - rewrite IH. now rewrite <- app_assoc.
Qed.

Lemma appendMatch_render (html : jsstring) (m : Match) :
  appendMatch html m = html ++ renderMatch m.
Proof.
  unfold renderMatch. destruct m as [text | i author date postMatches]; simpl.
  - reflexivity.
  - rewrite !fold_left_append. now rewrite <- !app_assoc.
Qed.

Lemma fold_left_ext (A B : Type) (f g : B -> A -> B) (l : list A) (b : B) :
  (forall b a, f b a = g b a) -> fold_left f l b = fold_left g l b.
Proof.
  intros E. revert b. induction l as [|a l IH]; intros b; simpl;
    [reflexivity|]. now rewrite E, IH.
Qed.

Lemma appendResult_render (html : jsstring) (result : Result) :
  appendResult html result = html ++ renderItem result.
Proof.
  unfold appendResult, renderItem.
  rewrite (fold_left_ext appendMatch
             (fun html m => html ++ renderMatch m) _ _ appendMatch_render).
  rewrite fold_left_append. now rewrite <- !app_assoc.
Qed.

Lemma formatSearchResults_items (results : list Result) (html : jsstring) :
  fold_left appendResult results html
  = html ++ concat (map renderItem results).
Proof.
  rewrite (fold_left_ext appendResult
             (fun html r => html ++ renderItem r) _ _ appendResult_render).
  apply fold_left_append.
Qed.

Lemma resultsHeader_not_noResults (n : nat) (items : jsstring) :
  resultsHeader n ++ items <> noResultsBlock.
Proof.
  intros H. apply (f_equal (firstn 20)) in H.
  unfold resultsHeader in H. rewrite <- !app_assoc in H.
  vm_compute in H. discriminate H.
Qed.

Lemma escapeHtml_units (text : jsstring) :
  escapeHtml text
  = flat_map (fun c : codeUnit =>
                if (c =? 38)%Z then lit "&amp;"
                else if (c =? 160)%Z then lit "&nbsp;"
                else if (c =? 60)%Z then lit "&lt;"
                else if (c =? 62)%Z then lit "&gt;"
                else [c]) text.
Proof.
  induction text as [|c s IH]; [reflexivity|].
  simpl. now rewrite IH.
Qed.

Lemma renderMatch_post (i : nat) (author date : jsstring)
      (postMatches : list PostMatch) :
  renderMatch (PostEntry i author date postMatches)
  = divOpen "search-match search-match-post"
    ++ newline 24 ++ divOpen "search-post-info"
    ++ [55357; 56420; 32]%Z ++ escapeHtml author
    ++ [32; 124; 32; 55357; 56656; 32]%Z ++ date ++ divClose
    ++ concat (map renderPostMatch postMatches) ++ divClose.
Proof.
  unfold renderMatch, appendMatch. rewrite fold_left_append, app_nil_l.
  now rewrite <- !app_assoc.
Qed.

Lemma renderItem_flat (r : Result) :
  renderItem r
  = newline 16 ++ divOpen "search-result-item"
    ++ newline 20 ++ divOpen "search-result-title"
    ++ newline 24 ++ titleLink r
    ++ newline 20 ++ divClose
    ++ newline 20 ++ divOpen "search-result-matches"
    ++ concat (map renderMatch (result_matches r))
    ++ divClose ++ newline 16 ++ divClose.
Proof.
  unfold renderItem, itemOpen, itemClose. now rewrite <- !app_assoc.
Qed.

Lemma occursIn_refl (s : jsstring) : occursIn s s.
Proof. exists [], []. now rewrite app_nil_r. Qed.

Lemma occursIn_app_r (k a b : jsstring) : occursIn k b -> occursIn k (a ++ b).
Proof.
  intros [x [y ->]]. exists (a ++ x), y. now rewrite <- app_assoc.
Qed.

Lemma occursIn_app_l (k a b : jsstring) : occursIn k a -> occursIn k (a ++ b).
Proof.
  intros [x [y ->]]. exists x, (y ++ b). now rewrite <- !app_assoc.
Qed.

Lemma occursIn_concat (A : Type) (f : A -> jsstring) (k : jsstring)
      (l : list A) (a : A) :
  In a l -> occursIn k (f a) -> occursIn k (concat (map f l)).
Proof.
  induction l as [|b l IH]; simpl; [contradiction|].
  intros [-> | I] H.
  - now apply occursIn_app_l.
  - apply occursIn_app_r. now apply IH.
Qed.

Lemma digitsOf_value (u : Decimal.uint) (acc : nat) :
  fold_left (fun acc d => (10 * acc + Z.to_nat (d - 48))%nat) (digitsOf u) acc
  = Nat.of_uint_acc u acc.
Proof.
  revert acc. induction u as [|u IH|u IH|u IH|u IH|u IH|u IH|u IH|u IH|u IH|u IH];
    intros acc; [reflexivity|..];
    cbn [digitsOf fold_left Nat.of_uint_acc]; rewrite IH; f_equal;
    rewrite Nat.tail_mul_spec;
    match goal with
    | |- context [Z.to_nat ?z] =>
        let v := eval vm_compute in (Z.to_nat z) in
        change (Z.to_nat z) with v
    end; lia.
Qed.

Lemma digitsOf_digits (u : Decimal.uint) :
  Forall (fun d => (48 <= d <= 57)%Z) (digitsOf u).
Proof.
  induction u; simpl; constructor; try assumption; lia.
Qed.

Lemma nzhead_no_zero (u v : Decimal.uint) :
  Decimal.nzhead u <> Decimal.D0 v.
Proof.
  induction u; simpl; try discriminate. exact IHu.
Qed.

Lemma decimal_facts (n : nat) :
  decimal n <> []
  /\ Forall (fun d => (48 <= d <= 57)%Z) (decimal n)
  /\ fold_left (fun acc d => (10 * acc + Z.to_nat (d - 48))%nat)
               (decimal n) 0%nat = n
  /\ (forall rest, decimal n = 48%Z :: rest -> rest = []).
Proof.
  unfold decimal. split; [|split; [|split]].
  - pose proof (DecimalNat.Unsigned.to_of (Nat.to_uint n)) as N.
    rewrite DecimalNat.Unsigned.of_to in N. rewrite N.
    unfold Decimal.unorm.
    destruct (Decimal.nzhead (Nat.to_uint n)); discriminate.
  - apply digitsOf_digits.
  - rewrite digitsOf_value. apply DecimalNat.Unsigned.of_to.
  - intros rest H.
    pose proof (DecimalNat.Unsigned.to_of (Nat.to_uint n)) as N.
    rewrite DecimalNat.Unsigned.of_to in N.
    destruct (Nat.to_uint n) as [|u| | | | | | | | |];
      simpl in H; try discriminate H.
    injection H as <-. unfold Decimal.unorm in N. simpl in N.
    destruct (Decimal.nzhead u) eqn:Z; try discriminate N.
    + injection N as ->. reflexivity.
    + exfalso. exact (@nzhead_no_zero _ _ Z).
Qed.

(** C7.  [formatSearchResults] returns the no-results block,
    [<div class="search-no-results">] with its message, if and only if the
    result list is empty.  For a non-empty list it returns the header,
    [<div class="search-results-header">] with the number of results in
    decimal, followed by one item per result, in order.  The item of a
    result is a [search-result-item] block that holds the title link, an
    anchor whose [href] is the file of the result and whose text is its
    escaped title, and a [search-result-matches] block with one entry per
    match of the result: a [search-match-title] block for a title match, and
    for a post match a [search-match-post] block with the escaped author,
    the date and one line per author or content match.  The markup is
    written out below, ASCII text through [lit], which maps a character to
    its code, and the rest code unit by code unit; the link of every result
    and the entry of every match of it occur in what is returned. *)
Theorem formatSearchResults_spec :
  let q := [34%Z] in
  let div := fun c : string => lit "<div class=" ++ q ++ lit c ++ q ++ lit ">" in
  let nl := fun n : nat => 10%Z :: repeat 32%Z n in
  let esc :=
    flat_map (fun c : codeUnit =>
                if (c =? 38)%Z then lit "&amp;"
                else if (c =? 160)%Z then lit "&nbsp;"
                else if (c =? 60)%Z then lit "&lt;"
                else if (c =? 62)%Z then lit "&gt;"
                else [c]) in
  let link := fun r : Result =>
    lit "<a href=" ++ q ++ result_file r ++ q
    ++ lit " target=" ++ q ++ lit "_blank" ++ q ++ lit ">"
    ++ esc (result_title r) ++ lit "</a>" in
  let line := fun pm : PostMatch =>
    match pm with
    | AuthorMatch text =>
        div "search-post-match"%string
        ++ [55357; 56420; 32; 20316; 32773; 31526; 21512; 58; 32]%Z
        ++ esc text ++ lit "</div>"
    | ContentMatch text =>
        div "search-post-match"%string
        ++ [55357; 56541; 32; 20839; 23481; 31526; 21512; 58; 32]%Z
        ++ esc text ++ lit "</div>"
    end in
  let entry := fun m : Match =>
    match m with
    | TitleMatch text =>
        div "search-match search-match-title"%string
        ++ [55357; 56523; 32; 27161; 38988; 31526; 21512; 58; 32]%Z
        ++ esc text ++ lit "</div>"
    | PostEntry _ author date postMatches =>
        div "search-match search-match-post"%string
        ++ nl 24 ++ div "search-post-info"%string
        ++ [55357; 56420; 32]%Z ++ esc author
        ++ [32; 124; 32; 55357; 56656; 32]%Z ++ date ++ lit "</div>"
        ++ concat (map line postMatches) ++ lit "</div>"
    end in
  let item := fun r : Result =>
    nl 16 ++ div "search-result-item"%string
    ++ nl 20 ++ div "search-result-title"%string
    ++ nl 24 ++ link r
    ++ nl 20 ++ lit "</div>"
    ++ nl 20 ++ div "search-result-matches"%string
    ++ concat (map entry (result_matches r))
    ++ lit "</div>" ++ nl 16 ++ lit "</div>" in
  let noResults :=
    div "search-no-results"%string
    ++ [25214; 19981; 21040; 31526; 21512; 30340; 25628; 23563; 32080;
        26524; 12290]%Z
    ++ lit "</div>" in
  let header := fun digits : jsstring =>
    div "search-results-header"%string
    ++ [25214; 21040; 32]%Z ++ digits
    ++ [32; 20491; 30456; 38364; 32080; 26524; 65306]%Z
    ++ lit "</div>" in
  (forall s, lit s
             = map (fun a => Z.of_N (N_of_ascii a)) (list_ascii_of_string s))
  /\ (forall results,
         formatSearchResults results = noResults <-> results = [])
  /\ (forall r results,
         formatSearchResults (r :: results)
         = header (decimal (length (r :: results)))
           ++ concat (map item (r :: results)))
  /\ (forall n,
         decimal n <> []
         /\ Forall (fun d => (48 <= d <= 57)%Z) (decimal n)
         /\ fold_left (fun acc d => (10 * acc + Z.to_nat (d - 48))%nat)
                      (decimal n) 0%nat = n
         /\ (forall rest, decimal n = 48%Z :: rest -> rest = []))
  /\ (forall results r,
         In r results ->
         occursIn (link r) (formatSearchResults results)
         /\ forall m, In m (result_matches r) ->
                      occursIn (entry m) (formatSearchResults results)).
Proof.
  intros q div nl esc link line entry item noResults header.
  assert (Hesc : forall s, esc s = escapeHtml s).
  { intros s. symmetry. apply escapeHtml_units. }
  assert (Hline : forall pm, line pm = renderPostMatch pm).
  { intros [text | text]; unfold line; rewrite Hesc; reflexivity. }
  assert (Hentry : forall m, entry m = renderMatch m).
  { intros [text | i author date postMatches]; unfold entry.
    - rewrite Hesc. reflexivity.
    - rewrite renderMatch_post, Hesc, (map_ext _ _ Hline). reflexivity. }
  assert (Hlink : forall r, link r = titleLink r).
  { intros r. unfold link. rewrite Hesc. reflexivity. }
  assert (Hitem : forall r, item r = renderItem r).
  { intros r. unfold item.
    rewrite renderItem_flat, Hlink, (map_ext _ _ Hentry). reflexivity. }
  assert (Hout : forall r results,
             formatSearchResults (r :: results)
             = header (decimal (length (r :: results)))
               ++ concat (map item (r :: results))).
  { intros r results. unfold formatSearchResults.
    change (length (r :: results) =? 0)%nat with false. cbv iota.
    rewrite formatSearchResults_items, (map_ext _ _ Hitem).
    unfold header, resultsHeader. now rewrite <- !app_assoc. }
  split; [reflexivity|]. split; [|split; [|split]].
  - intros [|r results]; split; try reflexivity.
    + intros H. exfalso. unfold formatSearchResults in H.
      change (length (r :: results) =? 0)%nat with false in H.
      rewrite formatSearchResults_items in H.
      exact (resultsHeader_not_noResults H).
    + discriminate.
  - exact Hout.
  - apply decimal_facts.
  - intros results r I. destruct results as [|r0 results]; [contradiction|].
    rewrite Hout.
    assert (L : occursIn (link r) (item r)).
    { unfold item. do 5 apply occursIn_app_r.
      apply occursIn_app_l, occursIn_refl. }
    split.
    + apply occursIn_app_r.
      now apply (@occursIn_concat _ item (link r) (r0 :: results) r).
    + intros m M. apply occursIn_app_r.
      apply (@occursIn_concat _ item (entry m) (r0 :: results) r I).
      unfold item. do 10 apply occursIn_app_r. apply occursIn_app_l.
      now apply (@occursIn_concat _ entry (entry m) (result_matches r) m M),
        occursIn_refl.
Qed.

(** ** The index cache *)

Lemma exec_consistent (w w' : World) (e : Event) :
  consistent w -> exec w e = Some w' -> consistent w'.
Proof.
  unfold consistent. destruct w as [[i l] n f c]. simpl.
  intros [H1 H2] E. destruct e as [|s]; simpl in E.
  - unfold loadIndex_enter in E. simpl in E.
    destruct i as [doc|]; simpl in E.
    + injection E as <-. simpl. auto.
    + destruct l; simpl in E; injection E as <-; simpl; auto.
  - destruct n as [|n]; [discriminate|]. injection E as <-. simpl.
    split; [discriminate|]. destruct l; [lia | discriminate].
Qed.

Lemma run_consistent (events : list Event) (w w' : World) :
  consistent w -> run w events = Some w' -> consistent w'.
Proof.
  revert w. induction events as [|e events IH]; intros w C R; simpl in R.
  - now injection R as <-.
  - destruct (exec w e) as [w1|] eqn:E; [|discriminate].
    apply (IH w1); [exact (@exec_consistent w w1 e C E) | exact R].
Qed.

Lemma initialWorld_consistent : consistent initialWorld.
Proof. split; [discriminate | reflexivity]. Qed.

Lemma exec_loaded (w w' : World) (e : Event) (doc : Index) :
  consistent w -> index (obj w) = Some doc -> exec w e = Some w' ->
  index (obj w') = Some doc /\ fetches w' = fetches w.
Proof.
  unfold consistent. destruct w as [[i l] n f c]. simpl.
  intros [H1 H2] -> E. destruct e as [|s]; simpl in E.
  - injection E as <-. simpl. auto.
  - destruct l; [now specialize (H1 eq_refl)|].
    subst n. discriminate.
Qed.

(** C5, amended.  Once a [loadIndex] has stored a loaded document, the index
    is cached for good: whatever calls of [loadIndex] follow, none of them
    fetches and the index stays the same document. *)
Theorem loadIndex_caches_loaded_index
        (events more : list Event) (w w' : World) (doc : Index) :
  run initialWorld events = Some w ->
  index (obj w) = Some doc ->
  run w more = Some w' ->
  index (obj w') = Some doc /\ fetches w' = fetches w.
Proof.
  intros R I M.
  pose proof (@run_consistent events initialWorld w
                initialWorld_consistent R) as C.
  clear R. revert w C I M.
  induction more as [|e more IH]; intros w C I M; simpl in M.
  - injection M as <-. auto.
  - destruct (exec w e) as [w1|] eqn:E; [|discriminate].
    destruct (@exec_loaded w w1 e doc C I E) as [I1 F1].
    destruct (IH w1 (@exec_consistent w w1 e C E) I1 M) as [I2 F2].
    split; [exact I2 | congruence].
Qed.

(** C5, amended, at a successful load followed by two more calls. *)
Lemma loadIndex_caches_loaded_index_witness :
  index (obj {| obj := {| index := Some sampleIndex; isLoading := false |};
                suspended := 0; fetches := 1; completed := 3 |})
  = Some sampleIndex
  /\ fetches {| obj := {| index := Some sampleIndex; isLoading := false |};
                suspended := 0; fetches := 1; completed := 3 |}
     = fetches {| obj := {| index := Some sampleIndex; isLoading := false |};
                  suspended := 0; fetches := 1; completed := 1 |}.
Proof.
  apply (@loadIndex_caches_loaded_index
           [Call; Settle (JsonParsed sampleIndex)] [Call; Call]
           {| obj := {| index := Some sampleIndex; isLoading := false |};
              suspended := 0; fetches := 1; completed := 1 |}
           {| obj := {| index := Some sampleIndex; isLoading := false |};
              suspended := 0; fetches := 1; completed := 3 |}
           sampleIndex); reflexivity.
Defined.

(** C5 as stated fails: a call whose fetch is rejected completes and leaves
    the index [null]; the next call goes past the guard and fetches again,
    so two fetches are issued, the second after a call has completed. *)
Lemma loadIndex_fetches_again_after_failure :
  run initialWorld [Call; Settle FetchRejected]
  = Some {| obj := constructor; suspended := 0; fetches := 1; completed := 1 |}
  /\ exec {| obj := constructor; suspended := 0; fetches := 1; completed := 1 |}
          Call
     = Some {| obj := {| index := None; isLoading := true |};
               suspended := 1; fetches := 2; completed := 1 |}
  /\ ~ (forall events w w',
           run initialWorld events = Some w -> (1 <= completed w)%nat ->
           exec w Call = Some w' -> fetches w' = fetches w).
Proof.
  split; [reflexivity|]. split; [reflexivity|].
  intros H.
  specialize (H [Call; Settle FetchRejected] _ _ eq_refl (le_n 1) eq_refl).
  discriminate H.
Qed.

(** ** Further properties: escaping *)

Lemma escapeHtml_cons (c : codeUnit) (s : jsstring) :
  escapeHtml (c :: s)
  = (if (c =? 38)%Z then [38; 97; 109; 112; 59]
     else if (c =? 160)%Z then [38; 110; 98; 115; 112; 59]
     else if (c =? 60)%Z then [38; 108; 116; 59]
     else if (c =? 62)%Z then [38; 103; 116; 59]
     else [c])%Z ++ escapeHtml s.
Proof. reflexivity. Qed.

Ltac split_special c :=
  destruct (Z.eqb_spec c 38); [|destruct (Z.eqb_spec c 160);
    [|destruct (Z.eqb_spec c 60); [|destruct (Z.eqb_spec c 62)]]].

Lemma escapeHtml_app (a b : jsstring) :
  escapeHtml (a ++ b) = escapeHtml a ++ escapeHtml b.
Proof.
  induction a as [|c a IH]; [reflexivity|].
  simpl app. rewrite !escapeHtml_cons, IH. now rewrite app_assoc.
Qed.

(** X1.  The markup that [escapeHtml] returns holds no angle bracket and no
    no-break space, whatever the text. *)
Theorem escapeHtml_no_markup (text : jsstring) :
  Forall (fun c => c <> 60 /\ c <> 62 /\ c <> 160)%Z (escapeHtml text).
Proof.
  induction text as [|c s IH]; [constructor|].
  rewrite escapeHtml_cons. split_special c; simpl;
    repeat (constructor; [cbv beta; lia|]); exact IH.
Qed.

(** X2.  [escapeHtml] loses nothing: two texts with the same escaped form are
    the same text. *)
Theorem escapeHtml_injective (a b : jsstring) :
  escapeHtml a = escapeHtml b -> a = b.
Proof.
  revert b. induction a as [|c a IH]; intros [|d b] H.
  - reflexivity.
  - rewrite escapeHtml_cons in H. split_special d; discriminate H.
  - rewrite escapeHtml_cons in H. split_special c; discriminate H.
  - rewrite !escapeHtml_cons in H.
    split_special c; split_special d; simpl in H;
      try (injection H as H; subst; try lia; f_equal; now apply IH);
      try (injection H; intros; lia).
Qed.

Lemma escapeHtml_injective_witness : lit "<b>" = lit "<b>".
Proof.
  apply (@escapeHtml_injective (lit "<b>") (lit "<b>")). reflexivity.
Defined.

Lemma escapeHtml_length (s : jsstring) :
  (length s <= length (escapeHtml s))%nat.
Proof.
  induction s as [|c s IH]; [apply le_n|].
  rewrite escapeHtml_cons, length_app.
  unfold jsstring, codeUnit in *. split_special c; cbn [length]; lia.
Qed.

(** X3.  [escapeHtml] returns a text unchanged exactly when the text holds none
    of the four code units it rewrites. *)
Theorem escapeHtml_fixed_iff (text : jsstring) :
  escapeHtml text = text
  <-> Forall (fun c => isHtmlSpecial c = false) text.
Proof.
  induction text as [|c s IH]; [split; [constructor | reflexivity]|].
  rewrite escapeHtml_cons. unfold isHtmlSpecial at 1. split.
  - intros H. pose proof (escapeHtml_length s) as L.
    apply (f_equal (@length _)) in H as HL. rewrite length_app in HL.
    unfold jsstring, codeUnit in *.
    revert H HL. split_special c; cbn [length app]; intros H HL; try lia.
    injection H as H. constructor; [|now apply IH].
    unfold isHtmlSpecial.
    repeat match goal with
           | N : ?x <> ?y |- _ => apply Z.eqb_neq in N; rewrite N; clear N
           end.
    reflexivity.
  - intros H. inversion H as [|? ? S F]; subst.
    unfold isHtmlSpecial in S. rewrite !orb_false_iff in S.
    destruct S as [[[S1 S2] S3] S4]. rewrite S1, S2, S3, S4.
    simpl. f_equal. now apply IH.
Qed.

Lemma countLt_app (a b : jsstring) :
  countLt (a ++ b) = (countLt a + countLt b)%nat.
Proof. apply count_occ_app. Qed.

Lemma countLt_escapeHtml (s : jsstring) : countLt (escapeHtml s) = 0%nat.
Proof.
  induction s as [|c s IH]; [reflexivity|].
  rewrite escapeHtml_cons, countLt_app, IH.
  split_special c; try reflexivity.
  unfold countLt. simpl. destruct (Z.eq_dec c 60); [contradiction|reflexivity].
Qed.

Lemma countLt_concat_const (A : Type) (f : A -> jsstring) (n : nat)
      (l : list A) :
  (forall a, countLt (f a) = n) ->
  countLt (concat (map f l)) = (length l * n)%nat.
Proof.
  intros H. induction l as [|a l IH]; simpl; [reflexivity|].
  now rewrite countLt_app, H, IH.
Qed.

Lemma countLt_renderPostMatch (pm : PostMatch) :
  countLt (renderPostMatch pm) = 2%nat.
Proof.
  destruct pm as [text | text]; unfold renderPostMatch;
    rewrite !countLt_app, countLt_escapeHtml; reflexivity.
Qed.

(** X4.  Text that passes through [escapeHtml] adds no tag to the markup: the
    entry of a title match holds two less-than signs whatever the title, and
    a line of a post match two whatever its text.  The date of a post and
    the file name of a result are inserted as they are, so the less-than
    signs they hold show up in the markup. *)
Theorem rendered_tags :
  (forall text, countLt (renderMatch (TitleMatch text)) = 2%nat)
  /\ (forall pm, countLt (renderPostMatch pm) = 2%nat)
  /\ (forall i author date postMatches,
         countLt (renderMatch (PostEntry i author date postMatches))
         = (4 + 2 * length postMatches + countLt date)%nat)
  /\ (forall r, countLt (titleLink r) = (2 + countLt (result_file r))%nat).
Proof.
  split; [|split; [|split]].
  - intros text. unfold renderMatch, appendMatch.
    rewrite !countLt_app, countLt_escapeHtml. reflexivity.
  - apply countLt_renderPostMatch.
  - intros i author date postMatches. unfold renderMatch, appendMatch.
    rewrite fold_left_append, !countLt_app, countLt_escapeHtml.
    rewrite (countLt_concat_const renderPostMatch postMatches
                                  countLt_renderPostMatch).
    change (countLt []) with 0%nat.
    change (countLt (divOpen "search-match search-match-post")) with 1%nat.
    change (countLt (newline 24)) with 0%nat.
    change (countLt (divOpen "search-post-info")) with 1%nat.
    change (countLt [55357; 56420; 32]%Z) with 0%nat.
    change (countLt [32; 124; 32; 55357; 56656; 32]%Z) with 0%nat.
    change (countLt divClose) with 1%nat.
    lia.
  - intros r. unfold titleLink.
    rewrite !countLt_app, countLt_escapeHtml.
    change (countLt (lit "<a href=")) with 1%nat.
    change (countLt dquote) with 0%nat.
    change (countLt (lit " target=")) with 0%nat.
    change (countLt (lit "_blank")) with 0%nat.
    change (countLt (lit ">")) with 0%nat.
    change (countLt (lit "</a>")) with 1%nat.
    lia.
Qed.

(** ** Further properties: the index cache *)

Lemma run_accounting (events : list Event) (w w' : World) :
  consistent w -> run w events = Some w' ->
  (fetches w' + wouldFetch (obj w')
   = fetches w + wouldFetch (obj w) + rejections events)%nat
  /\ index (obj w')
     = match index (obj w) with
       | Some doc => Some doc
       | None => firstParsed events
       end.
Proof.
  revert w. induction events as [|e events IH]; intros w C R; simpl in R.
  - injection R as <-. split; [simpl; lia | now destruct (index (obj w))].
  - destruct (exec w e) as [w1|] eqn:E; [|discriminate].
    pose proof (@exec_consistent w w1 e C E) as C1.
    destruct (IH w1 C1 R) as [F I]. rewrite F, I. clear IH R F I C1.
    destruct w as [[i l] n f c]. destruct C as [C1 C2]. simpl in C1, C2.
    destruct e as [|s]; simpl in E.
    + unfold loadIndex_enter in E. simpl in E.
      destruct i as [doc|]; [|destruct l]; simpl in E; injection E as <-;
        unfold wouldFetch; simpl; split; reflexivity || lia.
    + destruct n as [|n]; [discriminate|]. injection E as <-.
      destruct l; [|discriminate]. rewrite (C1 eq_refl).
      destruct s as [| |doc]; unfold wouldFetch; simpl;
        split; reflexivity || lia.
Qed.

(** X5.  At most one load is in flight: in every world that calls and
    settlements lead to, at most one call of [loadIndex] is suspended, one
    is suspended exactly when [isLoading] is set, and then the index is
    still [null]. *)
Theorem loadIndex_single_flight (events : list Event) (w : World) :
  run initialWorld events = Some w ->
  (suspended w <= 1)%nat
  /\ (isLoading (obj w) = true <-> suspended w = 1%nat)
  /\ (isLoading (obj w) = true -> index (obj w) = None).
Proof.
  intros R.
  destruct (@run_consistent events initialWorld w initialWorld_consistent R)
    as [C1 C2].
  rewrite C2. destruct (isLoading (obj w)); repeat split; auto; discriminate.
Qed.

Lemma loadIndex_single_flight_witness :
  (suspended {| obj := {| index := None; isLoading := true |};
                suspended := 1; fetches := 2; completed := 2 |} <= 1)%nat
  /\ (isLoading (obj {| obj := {| index := None; isLoading := true |};
                        suspended := 1; fetches := 2; completed := 2 |})
      = true
      <-> suspended {| obj := {| index := None; isLoading := true |};
                       suspended := 1; fetches := 2; completed := 2 |}
          = 1%nat)
  /\ (isLoading (obj {| obj := {| index := None; isLoading := true |};
                        suspended := 1; fetches := 2; completed := 2 |})
      = true ->
      index (obj {| obj := {| index := None; isLoading := true |};
                    suspended := 1; fetches := 2; completed := 2 |})
      = None).
Proof.
  apply (@loadIndex_single_flight [Call; Call; Settle JsonRejected; Call]).
  reflexivity.
Defined.

(** X6.  Every fetch but the first answers a rejection: the number of fetches
    issued so far is the number of rejected loads, plus one unless the
    object is idle without an index (so that its next call would fetch). *)
Theorem loadIndex_fetch_accounting (events : list Event) (w : World) :
  run initialWorld events = Some w ->
  (fetches w + wouldFetch (obj w) = 1 + rejections events)%nat.
Proof.
  intros R.
  destruct (@run_accounting events initialWorld w initialWorld_consistent R)
    as [F _].
  rewrite F. reflexivity.
Qed.

Lemma loadIndex_fetch_accounting_witness :
  (fetches {| obj := {| index := Some sampleIndex; isLoading := false |};
              suspended := 0; fetches := 2; completed := 3 |}
   + wouldFetch (obj {| obj := {| index := Some sampleIndex;
                                  isLoading := false |};
                        suspended := 0; fetches := 2; completed := 3 |})
   = 1 + rejections [Call; Settle FetchRejected; Call;
                     Settle (JsonParsed sampleIndex); Call])%nat.
Proof.
  apply (@loadIndex_fetch_accounting
           [Call; Settle FetchRejected; Call;
            Settle (JsonParsed sampleIndex); Call]).
  reflexivity.
Defined.

(** X7.  The index is the first document that a load delivered, and [null] as
    long as none did. *)
Theorem loadIndex_keeps_first_document (events : list Event) (w : World) :
  run initialWorld events = Some w ->
  index (obj w) = firstParsed events.
Proof.
  intros R.
  destruct (@run_accounting events initialWorld w initialWorld_consistent R)
    as [_ I].
  exact I.
Qed.

Lemma loadIndex_keeps_first_document_witness :
  index (obj {| obj := {| index := Some sampleIndex; isLoading := false |};
                suspended := 0; fetches := 2; completed := 3 |})
  = firstParsed [Call; Settle FetchRejected; Call;
                 Settle (JsonParsed sampleIndex); Call].
Proof.
  apply (@loadIndex_keeps_first_document
           [Call; Settle FetchRejected; Call;
            Settle (JsonParsed sampleIndex); Call]).
  reflexivity.
Defined.

(** ** Further properties: the search *)

Lemma indexedFrom_In (posts : list Post) (i j : nat) (post : Post) :
  In (j, post) (indexedFrom i posts) ->
  (i <= j)%nat /\ nth_error posts (j - i) = Some post.
Proof.
  unfold indexedFrom. revert i.
  induction posts as [|p posts IH]; intros i; simpl; [contradiction|].
  intros [E | I].
  - injection E as <- <-. rewrite Nat.sub_diag. auto.
  - destruct (IH (S i) I) as [L N]. split; [lia|].
    replace (j - i)%nat with (S (j - S i)) by lia. exact N.
Qed.

Lemma threadHit_off (toLowerCase : jsstring -> jsstring)
      (keywords : list jsstring) (thread : Thread) :
  threadHit toLowerCase false false false keywords thread = false.
Proof.
  unfold threadHit, titleHit. simpl.
  induction (thread_posts thread) as [|p posts IH]; [reflexivity|exact IH].
Qed.

Lemma distinct_keys_filter (K V : Type) (key : V -> K) (keep : V -> bool) :
  forall entries : list V,
    NoDup (map key entries) -> NoDup (map key (filter keep entries)).
Proof.
  intros entries. induction entries as [|e entries IH]; simpl; intros N.
  - constructor.
  - inversion N as [|? ? X N']; subst.
    destruct (keep e); simpl; [|now apply IH].
    constructor; [|now apply IH].
    intros I. apply X. apply in_map_iff in I. destruct I as [b [E I]].
    apply filter_In in I. apply in_map_iff. exists b. tauto.
Qed.

Lemma NoDup_prefix (A : Type) (l l' : list A) :
  isPrefix l l' -> NoDup l' -> NoDup l.
Proof. intros [rest ->]. apply NoDup_app_remove_r. Qed.

Section SearchExtras.

Variable toLowerCase : jsstring -> jsstring.

Lemma scanPosts_entries (sAuthor sContent : bool) (keywords : list jsstring)
      (posts : list Post) (i : nat) (matches : list Match) :
  scanPosts toLowerCase sAuthor sContent keywords i posts matches
  = matches
    ++ map (postEntryOf toLowerCase sAuthor sContent keywords)
         (filter (fun ip => postHit toLowerCase sAuthor sContent keywords
                                    (snd ip))
                 (indexedFrom i posts)).
Proof.
  revert i matches. induction posts as [|p posts IH]; intros i matches.
  - simpl. now rewrite app_nil_r.
  - simpl scanPosts. rewrite IH, postMatchesOf_hit.
    change (indexedFrom i (p :: posts))
      with ((i, p) :: indexedFrom (S i) posts).
    simpl filter.
    destruct (postHit toLowerCase sAuthor sContent keywords p).
    + simpl. now rewrite <- app_assoc.
    + reflexivity.
Qed.

(** X8.  The matches of a thread are laid out as the loops push them: the title
    match first, when the title is searched and matches, then one entry per
    post with a hit, in the order of [thread.posts], each carrying the
    position of its post, its author, its date and its matches. *)
Theorem threadMatches_layout (sAuthor sTitle sContent : bool)
        (keywords : list jsstring) (thread : Thread) :
  threadMatches toLowerCase sAuthor sTitle sContent keywords thread
  = (if titleHit toLowerCase sTitle keywords thread
     then [TitleMatch (thread_title thread)] else [])
    ++ map (postEntryOf toLowerCase sAuthor sContent keywords)
         (filter (fun ip => postHit toLowerCase sAuthor sContent keywords
                                    (snd ip))
                 (indexedFrom 0 (thread_posts thread))).
Proof.
  unfold threadMatches, titleHit. rewrite scanPosts_entries.
  now destruct (sTitle && searchInText toLowerCase (thread_title thread)
                                       keywords).
Qed.

Lemma postMatchesOf_shape (sAuthor sContent : bool)
      (keywords : list jsstring) (post : Post) :
  Forall (fun pm =>
            match pm with
            | AuthorMatch text => text = post_author post
            | ContentMatch text =>
                text = firstn 200 (post_content post) ++ lit "..."
                /\ (length text <= 203)%nat
            end)
         (postMatchesOf toLowerCase sAuthor sContent keywords post).
Proof.
  assert (L : (length (firstn 200 (post_content post) ++ lit "...")
               <= 203)%nat).
  { rewrite length_app, length_firstn.
    change (length (lit "...")) with 3%nat. lia. }
  unfold postMatchesOf, substring0.
  destruct (sAuthor && searchInText toLowerCase (post_author post) keywords);
    destruct (sContent && searchInText toLowerCase (post_content post)
                                       keywords);
    cbn [app];
    repeat (apply Forall_cons;
            [first [reflexivity | split; [reflexivity | exact L]]|]);
    apply Forall_nil.
Qed.

(** X9.  Every result that [search] returns is made from an entry of the index:
    a title match shows the title of the thread; a post entry carries the
    position of a post of the thread together with the author and date of
    that very post and at least one match; an author match shows the author
    of the post, and a content match shows the first 200 code units of the
    content followed by three dots, at most 203 code units, also when the
    content is shorter than 200. *)
Theorem search_results_shape
        (index : option Index) (query : jsstring) (options : Options) :
  Forall
    (fun r =>
       exists idx thread,
         index = Some idx
         /\ In (result_file r, thread) (threads idx)
         /\ result_title r = thread_title thread
         /\ Forall
              (fun m =>
                 match m with
                 | TitleMatch text => text = thread_title thread
                 | PostEntry i author date postMatches =>
                     exists post,
                       nth_error (thread_posts thread) i = Some post
                       /\ author = post_author post
                       /\ date = post_date post
                       /\ postMatches <> []
                       /\ Forall
                            (fun pm =>
                               match pm with
                               | AuthorMatch text => text = post_author post
                               | ContentMatch text =>
                                   text = firstn 200 (post_content post)
                                          ++ lit "..."
                                   /\ (length text <= 203)%nat
                               end)
                            postMatches
                 end)
              (result_matches r))
    (searchLoaded toLowerCase index query options).
Proof.
  apply Forall_forall. intros r I.
  apply searchLoaded_In in I. destruct I as [idx [E I]].
  apply scanResults_In in I. destruct I as [thread [I [_ R]]].
  exists idx, thread. repeat split; try assumption; [now rewrite R|].
  rewrite R. simpl result_matches. unfold threadMatches.
  rewrite scanPosts_entries. apply Forall_app. split.
  - destruct (orDefault true (searchTitle options)
              && searchInText toLowerCase (thread_title thread)
                              (keywordsOf toLowerCase query));
      repeat constructor.
  - apply Forall_forall. intros m M. apply in_map_iff in M.
    destruct M as [[j post] [<- M]]. apply filter_In in M.
    destruct M as [M H]. apply indexedFrom_In in M. destruct M as [_ M].
    rewrite Nat.sub_0_r in M. simpl. exists post.
    repeat split; try assumption; [|apply postMatchesOf_shape].
    simpl in H. rewrite <- postMatchesOf_hit in H.
    intros N. rewrite N in H. discriminate.
Qed.

(** X10.  No result has score zero, and none scores more than one above the
    number of posts of its thread. *)
Theorem search_score_bounds
        (index : option Index) (query : jsstring) (options : Options) :
  Forall
    (fun r =>
       (1 <= result_score r)%nat
       /\ exists idx thread,
            index = Some idx
            /\ In (result_file r, thread) (threads idx)
            /\ (result_score r <= 1 + length (thread_posts thread))%nat)
    (searchLoaded toLowerCase index query options).
Proof.
  apply Forall_forall. intros r I.
  apply searchLoaded_In in I. destruct I as [idx [E I]].
  apply scanResults_In in I. destruct I as [thread [I [H R]]].
  rewrite <- threadMatches_hit in H. apply Nat.ltb_lt in H.
  rewrite R. simpl result_score. split; [exact H|].
  exists idx, thread. repeat split; try assumption.
  rewrite threadMatches_length.
  pose proof (filter_length_le
                (postHit toLowerCase (orDefault true (searchAuthor options))
                         (orDefault true (searchContent options))
                         (keywordsOf toLowerCase query))
                (thread_posts thread)) as L.
  destruct (titleHit toLowerCase _ _ thread); lia.
Qed.

(** X11.  With the three fields switched off nothing is found, whatever the query
    and the index. *)
Theorem search_all_fields_off
        (index : option Index) (query : jsstring) (m : option Z) :
  searchLoaded toLowerCase index query
               {| searchAuthor := Some false; searchTitle := Some false;
                  searchContent := Some false; maxResults := m |}
  = [].
Proof.
  rewrite searchLoaded_slice.
  destruct (rankedResults_cases toLowerCase index query
              {| searchAuthor := Some false; searchTitle := Some false;
                 searchContent := Some false; maxResults := m |})
    as [-> | [idx [_ [_ [_ ->]]]]].
  - unfold slice0. apply firstn_nil.
  - rewrite scanResults_filter. simpl orDefault at 1 2 3 4 5 6.
    replace (filter _ (threads idx)) with (@nil (jsstring * Thread)).
    + unfold slice0. apply firstn_nil.
    + induction (threads idx) as [|e l IH]; [reflexivity|].
      simpl. now rewrite threadHit_off.
Qed.

(** X12.  When [maxResults] is at least the number of threads found, nothing is
    cut: [search] returns all of them, in sorted order. *)
Theorem search_without_truncation
        (index : option Index) (query : jsstring) (options : Options) :
  (Z.of_nat (length (rankedResults toLowerCase index query options))
   <= orDefault 50 (maxResults options))%Z ->
  searchLoaded toLowerCase index query options
  = rankedResults toLowerCase index query options.
Proof.
  intros H. rewrite searchLoaded_slice. unfold slice0.
  destruct (orDefault 50 (maxResults options) <? 0)%Z eqn:C; [lia|].
  rewrite firstn_all2; [reflexivity | lia].
Qed.

(** X13.  A negative [maxResults] cuts from the end: [search] returns the sorted
    list without its last [-maxResults] results. *)
Theorem search_negative_maxResults_drops_last
        (index : option Index) (query : jsstring) (options : Options) :
  (orDefault 50 (maxResults options) < 0)%Z ->
  searchLoaded toLowerCase index query options
  = firstn (length (rankedResults toLowerCase index query options)
            - Z.to_nat (- orDefault 50 (maxResults options))%Z)
           (rankedResults toLowerCase index query options).
Proof.
  intros H. rewrite searchLoaded_slice. unfold slice0.
  destruct (orDefault 50 (maxResults options) <? 0)%Z eqn:C; [|lia].
  f_equal. lia.
Qed.

Lemma searchInText_incl (text : jsstring) (keywords keywords' : list jsstring) :
  incl keywords keywords' ->
  searchInText toLowerCase text keywords = true ->
  searchInText toLowerCase text keywords' = true.
Proof.
  unfold searchInText. rewrite !existsb_exists.
  intros S [k [I H]]. exists k. auto.
Qed.

Lemma threadHit_incl (sAuthor sTitle sContent : bool)
      (keywords keywords' : list jsstring) (thread : Thread) :
  incl keywords keywords' ->
  threadHit toLowerCase sAuthor sTitle sContent keywords thread = true ->
  threadHit toLowerCase sAuthor sTitle sContent keywords' thread = true.
Proof.
  intros S. unfold threadHit, titleHit, postHit.
  rewrite !orb_true_iff, !existsb_exists.
  intros [H | [post [P H]]].
  - left. apply andb_true_iff in H. destruct H as [-> H]. simpl.
    eapply searchInText_incl; eassumption.
  - right. exists post. split; [exact P|].
    apply orb_true_iff in H. apply orb_true_iff.
    destruct H as [H | H]; [left | right];
      apply andb_true_iff in H; destruct H as [-> H]; simpl;
      eapply searchInText_incl; eassumption.
Qed.

(** X14.  Keywords are alternatives: a thread found with some keywords is still
    found when more keywords are added, in any position. *)
Theorem more_keywords_find_more
        (idx : Index) (keywords keywords' : list jsstring)
        (options : Options) (filename : jsstring) :
  incl keywords keywords' ->
  In filename (map (@result_file)
                   (scanResults toLowerCase idx keywords options)) ->
  In filename (map (@result_file)
                   (scanResults toLowerCase idx keywords' options)).
Proof.
  intros S. rewrite !scanResults_filter, !map_map. simpl.
  rewrite !in_map_iff. intros [e [E I]]. exists e. split; [exact E|].
  apply filter_In in I. apply filter_In. destruct I as [I H].
  split; [exact I | eapply threadHit_incl; eassumption].
Qed.

(** X15.  A thread is returned at most once: when the file names of the index are
    distinct, as the keys of an object are, so are those of the results. *)
Theorem search_results_distinct
        (idx : Index) (query : jsstring) (options : Options) :
  NoDup (map fst (threads idx)) ->
  NoDup (map (@result_file)
             (searchLoaded toLowerCase (Some idx) query options)).
Proof.
  intros N.
  destruct (searchLoaded_prefix toLowerCase (Some idx) query options)
    as [rest E].
  apply (@NoDup_prefix _ _ (map (@result_file)
                               (rankedResults toLowerCase (Some idx) query
                                              options))).
  - exists (map (@result_file) rest). now rewrite E, map_app.
  - destruct (rankedResults_cases toLowerCase (Some idx) query options)
      as [-> | [idx' [I [_ [_ ->]]]]]; [constructor|].
    injection I as <-.
    apply (Permutation_NoDup
             (Permutation_map _ (Permutation_sym (sortByScore_perm _)))).
    rewrite scanResults_filter, map_map. simpl.
    now apply distinct_keys_filter.
Qed.

Lemma normalizeText_kept (text : option jsstring) (c : codeUnit) :
  In c (normalizeText toLowerCase text) -> isKept c = true.
Proof.
  destruct text as [[|d s]|]; simpl; try contradiction.
  intros I. apply (@Trimmed_In _ _ c (trim_Trimmed _)) in I.
  rewrite replaceStripped_filter in I. apply filter_In in I. tauto.
Qed.

(** X16.  Every keyword is a non-empty run of ASCII word characters and CJK
    ideographs: it holds no white space and none of the code units that
    normalization deletes, punctuation for instance. *)
Theorem keywords_are_words (query : jsstring) :
  Forall
    (fun k =>
       k <> []
       /\ Forall (fun c => (isWordChar c || isCJK c) = true
                           /\ isWhiteSpace c = false) k)
    (keywordsOf toLowerCase query).
Proof.
  apply Forall_forall. intros k I.
  assert (S : SplitsInto (normalizeText toLowerCase (Some query))
                         (keywordsOf toLowerCase query)).
  { unfold keywordsOf, splitWhitespace.
    apply (splitLoop_SplitsInto (normalizeText toLowerCase (Some query))
                                (tok := []) (b := false));
      [constructor | discriminate]. }
  destruct (SplitsInto_tokens S k I) as [Hne [N C]].
  split; [exact Hne|]. apply Forall_forall. intros c Ic.
  unfold noBlank in N. rewrite Forall_forall in N.
  pose proof (N c Ic) as W. split; [|exact W].
  pose proof (normalizeText_kept _ c (C c Ic)) as K.
  unfold isKept in K. rewrite W, orb_false_r in K. exact K.
Qed.

End SearchExtras.

Lemma search_without_truncation_witness :
  searchLoaded toLowerCaseAscii (Some sampleIndex) (lit "sonic") noOptions
  = rankedResults toLowerCaseAscii (Some sampleIndex) (lit "sonic") noOptions.
Proof.
  apply (@search_without_truncation toLowerCaseAscii (Some sampleIndex)
                                    (lit "sonic") noOptions).
  vm_compute. discriminate.
Defined.

Lemma search_negative_maxResults_drops_last_witness :
  searchLoaded toLowerCaseAscii (Some sampleIndex) (lit "sonic")
               (withMaxResults (-1))
  = firstn (length (rankedResults toLowerCaseAscii (Some sampleIndex)
                                  (lit "sonic") (withMaxResults (-1)))
            - Z.to_nat (- orDefault 50 (maxResults (withMaxResults (-1))))%Z)
           (rankedResults toLowerCaseAscii (Some sampleIndex) (lit "sonic")
                          (withMaxResults (-1))).
Proof.
  apply (@search_negative_maxResults_drops_last
           toLowerCaseAscii (Some sampleIndex) (lit "sonic")
           (withMaxResults (-1))).
  reflexivity.
Defined.

Lemma more_keywords_find_more_witness :
  In (lit "thread-7.html")
     (map (@result_file)
          (scanResults toLowerCaseAscii sampleIndex
                       [lit "adventure"; lit "chao"] noOptions)).
Proof.
  apply (@more_keywords_find_more toLowerCaseAscii sampleIndex
           [lit "adventure"] [lit "adventure"; lit "chao"] noOptions
           (lit "thread-7.html")).
  - intros k [<- | []]. left. reflexivity.
  - left. reflexivity.
Defined.

Lemma search_results_distinct_witness :
  NoDup (map (@result_file)
             (searchLoaded toLowerCaseAscii (Some sampleIndex) (lit "sonic")
                           noOptions)).
Proof.
  apply (@search_results_distinct toLowerCaseAscii sampleIndex (lit "sonic")
                                  noOptions).
  vm_compute. apply NoDup_cons; [|apply NoDup_cons; [|apply NoDup_nil]].
  - intros [H | []]. discriminate H.
  - intros [].
Defined.

(** ** Further properties: the page *)

Lemma formatSearchResults_nonempty (results : list Result) :
  formatSearchResults results <> [].
Proof.
  destruct results as [|r results]; [discriminate|].
  unfold formatSearchResults.
  change (length (r :: results) =? 0)%nat with false.
  rewrite formatSearchResults_items. discriminate.
Qed.

Section PageFacts.

Variable toLowerCase : jsstring -> jsstring.

(** X17.  A failed load looks like an empty search: when the input is not blank
    and the index cannot be had (the fetch or the JSON parse is rejected, or
    a load is already in flight), [performSearch] shows the no-results
    block, not the error block, and hides the loading indicator. *)
Theorem performSearch_failed_load_shows_no_results
        (net : Settlement) (app : App) (loading : Display) :
  trim (searchInput_value (page app)) <> [] ->
  searchLoading_display (page app) = Some loading ->
  index (sonicHubSearch app) = None ->
  net = FetchRejected \/ net = JsonRejected
  \/ isLoading (sonicHubSearch app) = true ->
  performSearch toLowerCase net app
  = ({| sonicHubSearch := loadIndex net (sonicHubSearch app);
        page := {| searchInput_value := searchInput_value (page app);
                   searchResults_innerHTML := noResultsBlock;
                   searchResults_display := display_block;
                   searchLoading_display := Some display_none |} |},
     Fulfilled).
Proof.
  intros T L I N. unfold performSearch, performSearchVia.
  destruct (trim (searchInput_value (page app))) as [|c q] eqn:Q;
    [now contradiction T|].
  change (negb (nonEmpty (c :: q))) with false. cbv iota. rewrite L.
  cbv zeta. rewrite (@loadIndex_failed net (sonicHubSearch app) I N).
  reflexivity.
Qed.

(** X18.  When the input is not blank and the loading element exists,
    [performSearch] ends with the loading indicator hidden and the results
    shown, whether the search returns or throws: it shows the rendering of
    the results that the search returned, or the error block when the
    search threw, and never the empty string.  On an index of the shape
    [Index] the search returns what [search] returns for the trimmed input
    under the default options, at most 50 results. *)
Theorem performSearch_shows_results
        (searchBody : option Index -> jsstring -> Options
                      -> option (list Result))
        (net : Settlement) (app : App) (loading : Display) :
  trim (searchInput_value (page app)) <> [] ->
  searchLoading_display (page app) = Some loading ->
  let this := loadIndex net (sonicHubSearch app) in
  let query := trim (searchInput_value (page app)) in
  let shown :=
    match searchBody (index this) query noOptions with
    | Some results => formatSearchResults results
    | None => errorBlock
    end in
  performSearchVia searchBody net app
  = ({| sonicHubSearch := this;
        page := {| searchInput_value := searchInput_value (page app);
                   searchResults_innerHTML := shown;
                   searchResults_display := display_block;
                   searchLoading_display := Some display_none |} |},
     Fulfilled)
  /\ shown <> []
  /\ performSearch toLowerCase net app
     = ({| sonicHubSearch := this;
           page := {| searchInput_value := searchInput_value (page app);
                      searchResults_innerHTML :=
                        formatSearchResults
                          (searchLoaded toLowerCase (index this) query
                                        noOptions);
                      searchResults_display := display_block;
                      searchLoading_display := Some display_none |} |},
        Fulfilled)
  /\ (length (searchLoaded toLowerCase (index this) query noOptions)
      <= 50)%nat.
Proof.
  intros T L this query shown.
  assert (V : forall body,
             performSearchVia body net app
             = ({| sonicHubSearch := this;
                   page := {| searchInput_value :=
                                searchInput_value (page app);
                              searchResults_innerHTML :=
                                match body (index this) query noOptions with
                                | Some results => formatSearchResults results
                                | None => errorBlock
                                end;
                              searchResults_display := display_block;
                              searchLoading_display := Some display_none |} |},
                Fulfilled)).
  { intros body. unfold performSearchVia, query, this.
    destruct (trim (searchInput_value (page app))) as [|c q] eqn:Q;
      [now contradiction T|].
    change (negb (nonEmpty (c :: q))) with false. cbv iota. rewrite L.
    cbv zeta.
    now destruct (body (index (loadIndex net (sonicHubSearch app))) (c :: q)
                       noOptions). }
  split; [apply V|]. split; [|split].
  - unfold shown.
    destruct (searchBody (index this) query noOptions);
      [apply formatSearchResults_nonempty | discriminate].
  - unfold performSearch. apply V.
  - rewrite searchLoaded_slice.
    destruct (slice0_firstn
                (rankedResults toLowerCase (index this) query noOptions)
                (orDefault 50%Z (maxResults noOptions)))
      as [k [-> B]].
    simpl in B. rewrite length_firstn. lia.
Qed.

(** X19.  The handlers leave the search object alone, and so fetch nothing, unless
    there is something to search: [performSearch] changes it only when the
    trimmed input is not empty and the loading element exists, and the
    listener of the input event only when, besides, the trimmed input has at
    least two code units. *)
Theorem handlers_touch_index_only_to_search (net : Settlement) (app : App) :
  (sonicHubSearch (fst (performSearch toLowerCase net app))
   <> sonicHubSearch app ->
   trim (searchInput_value (page app)) <> []
   /\ searchLoading_display (page app) <> None)
  /\ (sonicHubSearch (fst (onInput toLowerCase net app))
      <> sonicHubSearch app ->
      (2 <= length (trim (searchInput_value (page app))))%nat
      /\ searchLoading_display (page app) <> None).
Proof.
  assert (P : sonicHubSearch (fst (performSearch toLowerCase net app))
              <> sonicHubSearch app ->
              trim (searchInput_value (page app)) <> []
              /\ searchLoading_display (page app) <> None).
  { unfold performSearch, performSearchVia.
    destruct (trim (searchInput_value (page app))) as [|c q].
    - simpl. intros H. now contradiction H.
    - change (negb (nonEmpty (c :: q))) with false. cbv iota.
      destruct (searchLoading_display (page app)).
      + intros _. split; discriminate.
      + simpl. intros H. now contradiction H. }
  split; [exact P|].
  unfold onInput.
  destruct (2 <=? length (trim (searchInput_value (page app))))%nat eqn:C.
  - apply Nat.leb_le in C. intros H. split; [exact C | now apply P].
  - simpl. intros H. now contradiction H.
Qed.

End PageFacts.

Lemma performSearch_failed_load_shows_no_results_witness :
  performSearch toLowerCaseAscii FetchRejected
    {| sonicHubSearch := constructor;
       page := {| searchInput_value := lit " sonic ";
                  searchResults_innerHTML := [];
                  searchResults_display := display_unset;
                  searchLoading_display := Some display_none |} |}
  = ({| sonicHubSearch := loadIndex FetchRejected constructor;
        page := {| searchInput_value := lit " sonic ";
                   searchResults_innerHTML := noResultsBlock;
                   searchResults_display := display_block;
                   searchLoading_display := Some display_none |} |},
     Fulfilled).
Proof.
  apply (@performSearch_failed_load_shows_no_results toLowerCaseAscii
           FetchRejected
           {| sonicHubSearch := constructor;
              page := {| searchInput_value := lit " sonic ";
                         searchResults_innerHTML := [];
                         searchResults_display := display_unset;
                         searchLoading_display := Some display_none |} |}
           display_none).
  - vm_compute. discriminate.
  - reflexivity.
  - reflexivity.
  - left. reflexivity.
Defined.

Lemma performSearch_shows_results_witness :
  match (fun (_ : option Index) (_ : jsstring) (_ : Options) =>
           @None (list Result))
          (index (loadIndex (JsonParsed sampleIndex) constructor))
          (trim (lit " sonic ")) noOptions with
  | Some results => formatSearchResults results
  | None => errorBlock
  end <> [].
Proof.
  apply (@performSearch_shows_results toLowerCaseAscii
           (fun _ _ _ => None)
           (JsonParsed sampleIndex)
           {| sonicHubSearch := constructor;
              page := {| searchInput_value := lit " sonic ";
                         searchResults_innerHTML := [];
                         searchResults_display := display_unset;
                         searchLoading_display := Some display_none |} |}
           display_none).
  - vm_compute. discriminate.
  - reflexivity.
Defined.

(** ** Further properties: debounce *)

Section DebounceFacts.

Variable A : Type.

Lemma clearTimeout_onePending (d : Debounced A) :
  onePending d -> clearTimeout (timeout d) (timers d) = [].
Proof.
  intros [E | [id [args [E T]]]]; rewrite E.
  - now destruct (timeout d).
  - rewrite T. simpl. now rewrite Nat.eqb_refl.
Qed.

Lemma debounceStep_latest (d d' : Debounced A) (e : DebounceEvent A)
      (rest : list (DebounceEvent A)) :
  onePending d -> debounceStep d e = Some d' ->
  onePending d'
  /\ calls d' ++ latestArgs (pendingArgs d') rest
     = calls d ++ latestArgs (pendingArgs d) (e :: rest).
Proof.
  intros P S. destruct e as [args | id]; simpl in S.
  - injection S as <-. rewrite (clearTimeout_onePending P). simpl. split.
    + right. now exists (nextTimer d), args.
    + reflexivity.
  - destruct P as [E | [i [args [E T]]]]; rewrite E in S; simpl in S;
      [discriminate|].
    destruct (i =? id)%nat eqn:C; [|discriminate].
    simpl in S. rewrite T in S. injection S as <-.
    unfold pendingArgs. rewrite E. simpl.
    destruct (negb (i =? i)%nat); simpl; (split; [now left|]);
      now rewrite <- app_assoc.
Qed.

Lemma debounceRun_latest (events : list (DebounceEvent A))
      (d d' : Debounced A) :
  onePending d -> debounceRun d events = Some d' ->
  onePending d'
  /\ calls d' = calls d ++ latestArgs (pendingArgs d) events.
Proof.
  revert d. induction events as [|e events IH]; intros d P R; simpl in R.
  - injection R as <-. split; [exact P | now rewrite app_nil_r].
  - destruct (debounceStep d e) as [d1|] eqn:S; [|discriminate].
    destruct (@debounceStep_latest d d1 e events P S) as [P1 E].
    destruct (IH d1 P1 R) as [P' E']. split; [exact P'|].
    now rewrite E', E.
Qed.

(** X20.  The debounced function calls [func] with fresh arguments only: each
    timer that fires passes on the arguments of the latest invocation, once,
    and the invocations before it since the previous firing are dropped; at
    most one timer is pending at any time. *)
Theorem debounce_passes_latest_args (events : list (DebounceEvent A))
        (d : Debounced A) :
  debounceRun (debounce A) events = Some d ->
  calls d = latestArgs None events /\ (length (timers d) <= 1)%nat.
Proof.
  intros R.
  destruct (@debounceRun_latest events (debounce A) d (or_introl eq_refl) R)
    as [P E].
  split; [exact E|].
  destruct P as [-> | [id [args [-> _]]]]; simpl; lia.
Qed.

Lemma debounceRun_invocations (earlier : list A) (last : A)
      (rest : list (DebounceEvent A)) (d : Debounced A) :
  onePending d ->
  debounceRun d (map (@Invoke A) (earlier ++ [last]) ++ rest)
  = debounceRun {| timeout := Some (nextTimer d + length earlier)%nat;
                   timers := [((nextTimer d + length earlier)%nat, last)];
                   nextTimer := S (nextTimer d + length earlier);
                   calls := calls d |} rest.
Proof.
  revert d. induction earlier as [|a earlier IH]; intros d P; simpl.
  - rewrite (clearTimeout_onePending P), Nat.add_0_r. reflexivity.
  - rewrite (clearTimeout_onePending P). simpl app. rewrite IH.
    + simpl. now rewrite <- !plus_n_Sm.
    + right. now exists (nextTimer d), a.
Qed.

(** X21.  A burst of invocations followed by the firing of the timer calls [func]
    exactly once, with the arguments of the last invocation. *)
Theorem debounce_burst (earlier : list A) (last : A) :
  debounceRun (debounce A)
              (map (@Invoke A) (earlier ++ [last])
               ++ [Expire A (length earlier)])
  = Some {| timeout := Some (length earlier);
            timers := [];
            nextTimer := S (length earlier);
            calls := [last] |}.
Proof.
  rewrite debounceRun_invocations by now left.
  simpl. now rewrite Nat.eqb_refl.
Qed.

End DebounceFacts.

Lemma debounce_passes_latest_args_witness :
  calls {| timeout := Some 2%nat; timers := [(2%nat, 30%nat)];
           nextTimer := 3; calls := [20%nat] |}
  = latestArgs None [Invoke 10%nat; Invoke 20%nat; Expire nat 1;
                     Invoke 30%nat]
  /\ (length (timers {| timeout := Some 2%nat; timers := [(2%nat, 30%nat)];
                        nextTimer := 3; calls := [20%nat] |}) <= 1)%nat.
Proof.
  apply (@debounce_passes_latest_args nat
           [Invoke 10%nat; Invoke 20%nat; Expire nat 1; Invoke 30%nat]).
  reflexivity.
Defined.
